(** * carbon-relay-ng: the routing table and the per-route relay

    A shallow embedding of package [routing] (types [Route] and [Routes],
    the relay loop and [updateConn]) and the properties of its
    specification.

    Conventions of the embedding.
    - A [*Route] is a location in a heap of [Route] structs; a [nil]
      pointer, which is what a missing map entry yields, panics when
      dereferenced.
    - Every method of [Routes] holds [routes.lock] for its whole body, so a
      method is one atomic transformation of the world; the lock itself is
      not represented.
    - A channel send, a started goroutine and a call into statsd, the disk
      queue or the network is recorded as an event or an action, in program
      order.  A send on a [nil] channel blocks forever; a send on a made
      channel is recorded when it is issued.
    - [regexp], [net] and the results of [conn.Write] are the environment:
      the regexp library is an interface, the network an oracle.
    - [log] and [fmt] output is left out. *)

From stdpp Require Import base option list gmap strings.
From Stdlib Require Import ZArith Strings.Ascii Strings.Byte.

Local Open Scope string_scope.
Local Open Scope Z_scope.

(** ** Environment *)

(** [[]byte] *)
Abbreviation bytes := (list byte) (only parsing).

(** [error]: only the message is kept. *)
Abbreviation error := string (only parsing).

(** Package [regexp], as far as the relay uses it. *)
Class RegexpLib := {
  Regexp : Type;
  Compile : string → Regexp + error;
  Match : Regexp → bytes → bool;
}.

(** [*net.TCPAddr] and [*net.TCPConn] are opaque handles. *)
Abbreviation TCPAddr := string (only parsing).
Abbreviation TCPConn := positive (only parsing).

(** What [net.ResolveTCPAddr] and [net.DialTCP] answer. *)
Record Net := {
  ResolveTCPAddr : string → TCPAddr + error;
  DialTCP : TCPAddr → TCPConn + error;
}.

(** What one [conn.Write(buf)] answers: [(n, err)]. *)
Record WriteResult := { wr_n : Z; wr_err : option error }.

(** A pointer to a [Route]. *)
Abbreviation loc := positive (only parsing).

(** How a call ends. *)
Inductive outcome (A : Type) : Type :=
| Returned (a : A)
| Panicked
| Blocked.
Arguments Returned {A} a.
Arguments Panicked {A}.
Arguments Blocked {A}.

(** A channel field: [nil] until [Run] makes it. *)
Inductive chan := nil_chan | made_chan.

Global Instance chan_eq_dec : EqDecision chan.
Proof. solve_decision. Defined.

(** [time.Duration] counts nanoseconds. *)
Definition Second : Z := 1000000000.

(** [nsqd.NewDiskQueue(name, dataPath, maxBytesPerFile, syncEvery, syncTimeout)] *)
Record DiskQueue := {
  dq_name : string;
  dq_dataPath : string;
  dq_maxBytesPerFile : Z;
  dq_syncEvery : Z;
  dq_syncTimeout : Z;
}.

(** [*statsd.Client] *)
Abbreviation Client := positive (only parsing).

Section Routing.
Context `{RegexpLib}.

(** ** Route *)

Record Route := mkRoute {
  Key : string;
  Patt : string;
  Addr : string;
  spoolDir : string;
  Spool : bool;
  instrument : Client;
  Reg : option Regexp;
  ch : chan;
  shutdown : chan;
  queue : option DiskQueue;
  raddr : option TCPAddr;
  connUpdates : chan;
  inConnUpdate : chan;
}.

(** [route.updatePattern(pattern)], on the struct the receiver points to. *)
Definition updatePattern (route : Route) (pattern : string) : Route * option error :=
  match Compile pattern with
  | inr err => (route, Some err)
  | inl regex =>
      (mkRoute (Key route) pattern (Addr route) (spoolDir route) (Spool route)
         (instrument route) (Some regex) (ch route) (shutdown route)
         (queue route) (raddr route) (connUpdates route) (inConnUpdate route),
       None)
  end.

(** [NewRoute]: the struct behind the returned pointer, or the error. *)
Definition NewRoute (key patt addr spoolDir : string) (spool : bool)
    (instrument : Client) : Route + error :=
  let route := mkRoute key "" addr spoolDir spool instrument None
                 nil_chan nil_chan None None nil_chan nil_chan in
  match updatePattern route patt with
  | (_, Some err) => inr err
  | (route, None) => inl route
  end.

(** The struct literal of [Copy]. *)
Definition Copy_struct (route : Route) : Route :=
  mkRoute (Key route) (Patt route) (Addr route) (spoolDir route) (Spool route)
    (instrument route) (Reg route) nil_chan nil_chan None None nil_chan nil_chan.

(** [route.Copy()] for the route at [l]: the literal is allocated at an
    unused location, which is returned. *)
Definition Copy (h : gmap loc Route) (l : loc) : option (gmap loc Route * loc) :=
  route ← h !! l;
  let p := fresh (dom h) in
  Some (<[p := Copy_struct route]> h, p).

(** What a method of [Route] or [Routes] does to the rest of the program. *)
Inductive Event :=
| GoRelay (l : loc)                          (* go route.relay() *)
| SendCh (l : loc) (buf : bytes)             (* route.ch <- buf *)
| SendShutdown (l : loc)                     (* route.shutdown <- true *)
| SendInConnUpdate (l : loc) (b : bool)      (* route.inConnUpdate <- b *)
| SendConnUpdates (l : loc) (c : TCPConn).   (* route.connUpdates <- new_conn *)

(** [route.Run()], for the route at [l]: the channels are made, the queue is
    opened when spooling, the relay is started.  [err] is never assigned. *)
Definition Run (l : loc) (route : Route) : Route * list Event * option error :=
  let queue :=
    if Spool route
    then Some {| dq_name := "spool_" +:+ Key route;
                 dq_dataPath := spoolDir route;
                 dq_maxBytesPerFile := 200 * 1024 * 1024;
                 dq_syncEvery := 1000;
                 dq_syncTimeout := 2 * Second |}
    else queue route in
  (mkRoute (Key route) (Patt route) (Addr route) (spoolDir route) (Spool route)
     (instrument route) (Reg route) made_chan made_chan queue (raddr route)
     made_chan made_chan,
   [GoRelay l], None).

(** [route.Shutdown()] *)
Definition Shutdown (l : loc) (route : Route) : list Event * option error :=
  match shutdown route with
  | nil_chan => ([], Some "not running yet")
  | made_chan => ([SendShutdown l], None)
  end.

(** [route.updateConn()], for the route at [l].  The deferred send of
    [false] runs on every return; it does not run when the body blocks. *)
Definition updateConn (net : Net) (l : loc) (route : Route)
    : Route * list Event * outcome (option error) :=
  match inConnUpdate route with
  | nil_chan => (route, [], Blocked)
  | made_chan =>
      match ResolveTCPAddr net (Addr route) with
      | inr err =>
          (route, [SendInConnUpdate l true; SendInConnUpdate l false],
           Returned (Some err))
      | inl raddr =>
          let route :=
            mkRoute (Key route) (Patt route) (Addr route) (spoolDir route)
              (Spool route) (instrument route) (Reg route) (ch route)
              (shutdown route) (queue route) (Some raddr) (connUpdates route)
              (inConnUpdate route) in
          match DialTCP net raddr with
          | inr err =>
              (route, [SendInConnUpdate l true; SendInConnUpdate l false],
               Returned (Some err))
          | inl new_conn =>
              match connUpdates route with
              | nil_chan => (route, [SendInConnUpdate l true], Blocked)
              | made_chan =>
                  (route,
                   [SendInConnUpdate l true; SendConnUpdates l new_conn;
                    SendInConnUpdate l false],
                   Returned None)
              end
          end
      end
  end.

(** ** Routes *)

Record Routes := mkRoutes {
  Map : gmap string loc;
  KeyList : list string;
  SpoolDir : string;
}.

(** The routing table and the routes its pointers lead to. *)
Record World := mkWorld {
  heap : gmap loc Route;
  routes : Routes;
}.

(** [routes.Map[key]], dereferenced: [None] stands for the [nil] a missing
    key yields. *)
Definition deref (w : World) (key : string) : option (loc * Route) :=
  l ← Map (routes w) !! key; route ← heap w !! l; Some (l, route).

(** The loop of [Dispatch] over the keys still to visit; [routed] is the
    named result. *)
Fixpoint Dispatch_range (w : World) (buf : bytes) (first_only : bool)
    (keys : list string) (routed : bool) : list Event * outcome bool :=
  match keys with
  | [] => ([], Returned routed)
  | key :: keys =>
      match deref w key with
      | None => ([], Panicked)
      | Some (l, route) =>
          match Reg route with
          | None => ([], Panicked)
          | Some reg =>
              if Match reg buf then
                match ch route with
                | nil_chan => ([], Blocked)
                | made_chan =>
                    if first_only then ([SendCh l buf], Returned true)
                    else
                      let '(evs, r) := Dispatch_range w buf first_only keys true in
                      (SendCh l buf :: evs, r)
                end
              else Dispatch_range w buf first_only keys routed
          end
      end
  end.

(** [routes.Dispatch(buf, first_only)] *)
Definition Dispatch (w : World) (buf : bytes) (first_only : bool)
    : list Event * outcome bool :=
  Dispatch_range w buf first_only (KeyList (routes w)) false.

(** The loop of [List] over the entries of the map, in the order the
    runtime ranges over them.  [*v.Copy()] loads the struct from the pointer
    [Copy] returns; nothing keeps that pointer. *)
Fixpoint List_range (h : gmap loc Route) (entries : list (string * loc))
    (ret : gmap string Route) : outcome (gmap string Route) :=
  match entries with
  | [] => Returned ret
  | (k, v) :: entries =>
      match Copy h v with
      | None => Panicked
      | Some (h', p) =>
          match h' !! p with
          | None => Panicked
          | Some copy => List_range h entries (<[k := copy]> ret)
          end
      end
  end.

(** [routes.List()] *)
Definition List (w : World) : World * outcome (gmap string Route) :=
  (w, List_range (heap w) (map_to_list (Map (routes w))) ∅).

(** The loop of [NewRoutes] over the entries of [routeDefsMap]; every new
    struct is allocated at an unused location. *)
Fixpoint NewRoutes_range (entries : list (string * Route)) (spoolDir : string)
    (instrument : Client) (h : gmap loc Route) (routesMap : gmap string loc)
    : gmap loc Route * gmap string loc + error :=
  match entries with
  | [] => inl (h, routesMap)
  | (k, routeDef) :: entries =>
      match NewRoute k (Patt routeDef) (Addr routeDef) spoolDir (Spool routeDef)
              instrument with
      | inr err => inr err
      | inl route =>
          let l := fresh (dom h) in
          NewRoutes_range entries spoolDir instrument (<[l := route]> h)
            (<[k := l]> routesMap)
      end
  end.

(** [NewRoutes(routeDefsMap, spoolDir, instrument)] *)
Definition NewRoutes (routeDefsMap : gmap string Route) (spoolDir : string)
    (instrument : Client) : World + error :=
  match NewRoutes_range (map_to_list routeDefsMap) spoolDir instrument ∅ ∅ with
  | inr err => inr err
  | inl (h, routesMap) => inl (mkWorld h (mkRoutes routesMap [] spoolDir))
  end.

(** The loop of [routes.Run()]. *)
Fixpoint Routes_Run_range (entries : list (string * loc)) (h : gmap loc Route)
    : gmap loc Route * list Event * outcome (option error) :=
  match entries with
  | [] => (h, [], Returned None)
  | (_, l) :: entries =>
      match h !! l with
      | None => (h, [], Panicked)
      | Some route =>
          match Run l route with
          | (route, evs, Some err) => (<[l := route]> h, evs, Returned (Some err))
          | (route, evs, None) =>
              let '(h, evs', r) := Routes_Run_range entries (<[l := route]> h) in
              (h, (evs ++ evs')%list, r)
          end
      end
  end.

(** [routes.Run()] *)
Definition Routes_Run (w : World) : World * list Event * outcome (option error) :=
  let '(h, evs, r) := Routes_Run_range (map_to_list (Map (routes w))) (heap w) in
  (mkWorld h (routes w), evs, r).

(** [strings.Count(str, ".")] *)
Fixpoint Count_dot (str : string) : Z :=
  match str with
  | EmptyString => 0
  | String c str => (if Ascii.eqb c "."%char then 1 else 0) + Count_dot str
  end.

(** The loop of [main] that fills [routes.KeyList] from the keys of the
    configuration file, in file order: a key [routes.<name>] yields
    [<name>]. *)
Fixpoint main_KeyList (keys : list string) (KeyList : list string) : list string :=
  match keys with
  | [] => KeyList
  | str :: keys =>
      main_KeyList keys
        (if bool_decide (Count_dot str = 1) && String.prefix "routes." str
         then (KeyList ++ [String.substring 7 (String.length str - 7) str])%list
         else KeyList)
  end.

(** The part of [main] that builds the table: [NewRoutes], then the key
    list, then [routes.Run()]. *)
Definition main_routes (routeDefsMap : gmap string Route) (keys : list string)
    (spoolDir : string) (instrument : Client)
    : (World * list Event * outcome (option error)) + error :=
  match NewRoutes routeDefsMap spoolDir instrument with
  | inr err => inr err
  | inl w =>
      inl (Routes_Run
             (mkWorld (heap w)
                (mkRoutes (Map (routes w))
                   (main_KeyList keys (KeyList (routes w)))
                   (SpoolDir (routes w)))))
  end.

(** [routes.Add(key, patt, addr, spool, instrument)]; the new struct is
    allocated at an unused location. *)
Definition Add (key patt addr : string) (spool : bool) (instrument : Client)
    (w : World) : World * list Event * option error :=
  match Map (routes w) !! key with
  | Some _ => (w, [], Some "route with given key already exists")
  | None =>
      match NewRoute key patt addr (SpoolDir (routes w)) spool instrument with
      | inr err => (w, [], Some err)
      | inl route =>
          let l := fresh (dom (heap w)) in
          match Run l route with
          | (route, evs, Some err) =>
              (mkWorld (<[l := route]> (heap w)) (routes w), evs, Some err)
          | (route, evs, None) =>
              (mkWorld (<[l := route]> (heap w))
                 (mkRoutes (<[key := l]> (Map (routes w))) (KeyList (routes w))
                    (SpoolDir (routes w))),
               evs, None)
          end
      end
  end.

(** [routes.Update(key, addr, patt)]; [None] is a [nil] argument. *)
Definition Update (net : Net) (key : string) (addr patt : option string)
    (w : World) : World * list Event * outcome (option error) :=
  match Map (routes w) !! key with
  | None => (w, [], Returned (Some ("unknown route '" +:+ key +:+ "'")))
  | Some l =>
      match heap w !! l with
      | None => (w, [], Panicked)
      | Some route =>
          match addr with
          | Some _ =>
              let '(route, evs, r) := updateConn net l route in
              (mkWorld (<[l := route]> (heap w)) (routes w), evs, r)
          | None =>
              match patt with
              | Some patt =>
                  let '(route, err) := updatePattern route patt in
                  (mkWorld (<[l := route]> (heap w)) (routes w), [], Returned err)
              | None => (w, [], Returned None)
              end
          end
      end
  end.

(** [routes.Del(key)] *)
Definition Del (key : string) (w : World)
    : World * list Event * outcome (option error) :=
  match Map (routes w) !! key with
  | None => (w, [], Returned (Some ("unknown route '" +:+ key +:+ "'")))
  | Some l =>
      let w' := mkWorld (heap w)
                  (mkRoutes (delete key (Map (routes w))) (KeyList (routes w))
                     (SpoolDir (routes w))) in
      match heap w !! l with
      | None => (w', [], Panicked)
      | Some route =>
          let '(evs, err) := Shutdown l route in (w', evs, Returned err)
      end
  end.

(** ** The relay loop *)

(** What the relay does to statsd, the disk queue, the connection and the
    scheduler. *)
Inductive Action :=
| Increment (stat : string)              (* route.instrument.Increment(stat) *)
| QueuePut (buf : bytes)                 (* route.queue.Put(buf) *)
| ConnWrite (c : TCPConn) (buf : bytes)  (* conn.Write(buf) *)
| ConnClose (c : TCPConn)                (* conn.Close() *)
| GoUpdateConn.                          (* go route.updateConn() *)

Definition stat_spool (route : Route) : string :=
  "route=" +:+ Key route +:+ ".target_type=count.unit=Metric.direction=spool".
Definition stat_drop (route : Route) : string :=
  "route=" +:+ Key route +:+ ".target_type=count.unit=Metric.direction=drop".
Definition stat_out (route : Route) : string :=
  "route=" +:+ Key route +:+ ".target_type=count.unit=Metric.direction=out".
Definition stat_err (route : Route) : string :=
  "route=" +:+ Key route +:+ ".target_type=count.unit=Err".

(** [route.queue.Put(buf)]: a [nil] queue panics. *)
Definition queue_Put (route : Route) (buf : bytes) : list Action * outcome unit :=
  match queue route with
  | None => ([], Panicked)
  | Some _ => ([QueuePut buf], Returned ())
  end.

(** The tail both failure branches of [process_packet] share: count the
    error, close and clear the connection, spool when enabled. *)
Definition write_failed (route : Route) (c : TCPConn) (buf : bytes)
    : list Action * outcome (option TCPConn) :=
  if Spool route then
    let '(acts, r) := queue_Put route buf in
    (Increment (stat_err route) :: ConnClose c :: acts,
     match r with Returned _ => Returned None | Panicked => Panicked | Blocked => Blocked end)
  else ([Increment (stat_err route); ConnClose c], Returned None).

(** The closure [process_packet]; [conn] is the captured variable, the
    result its value afterwards, [wr] what [conn.Write] answers if called. *)
Definition process_packet (route : Route) (wr : WriteResult)
    (conn : option TCPConn) (buf : bytes)
    : list Action * outcome (option TCPConn) :=
  match conn with
  | None =>
      if Spool route then
        let '(acts, r) := queue_Put route buf in
        (Increment (stat_spool route) :: acts,
         match r with Returned _ => Returned None | Panicked => Panicked | Blocked => Blocked end)
      else ([Increment (stat_drop route)], Returned None)
  | Some c =>
      let '(acts, r) :=
        match wr_err wr with
        | Some _ => write_failed route c buf
        | None =>
            if bool_decide (Z.of_nat (length buf) ≠ wr_n wr)
            then write_failed route c buf
            else ([], Returned (Some c))
        end in
      (Increment (stat_out route) :: ConnWrite c buf :: acts, r)
  end.

(** Go's [int], 64 bits wide: the value a sum wraps to. *)
Definition int_wrap (z : Z) : Z := (z + 2 ^ 63) mod 2 ^ 64 - 2 ^ 63.

Definition period_assure_conn : Z := 60 * Second.

(** The variables of [relay] that live across iterations. *)
Record Relay := mkRelay {
  conn : option TCPConn;
  conn_updates : Z;
}.

(** The case of the [select] that fires, with what it receives. *)
Inductive Recv :=
| FromInConnUpdate (inConnUpdate : bool)
| FromConnUpdates (new_conn : option TCPConn)
| FromTicker
| FromShutdown
| FromUnspool (buf : bytes) (wr : WriteResult)
| FromCh (buf : bytes) (wr : WriteResult).

(** [to_unspool] is the queue's read channel only with a connection and
    spooling, [nil] otherwise, and a [nil] channel is never received from. *)
Definition to_unspool (route : Route) (st : Relay) : bool :=
  bool_decide (conn st ≠ None) && Spool route.

Definition selectable (route : Route) (st : Relay) (msg : Recv) : bool :=
  match msg with
  | FromUnspool _ _ => to_unspool route st
  | _ => true
  end.

(** One iteration of the [for] loop of [relay], given the case that fires:
    the actions, and the next state or [None] when [relay] returns. *)
Definition relay_iter (route : Route) (st : Relay) (msg : Recv)
    : list Action * outcome (option Relay) :=
  if to_unspool route st && bool_decide (queue route = None)
  then ([], Panicked)              (* route.queue.ReadChan() on a nil queue *)
  else
  match msg with
  | FromInConnUpdate true =>
      ([], Returned (Some (mkRelay (conn st) (int_wrap (conn_updates st + 1)))))
  | FromInConnUpdate false =>
      ([], Returned (Some (mkRelay (conn st) (int_wrap (conn_updates st - 1)))))
  | FromConnUpdates new_conn =>
      ([], Returned (Some (mkRelay new_conn (conn_updates st))))
  | FromTicker =>
      if bool_decide (conn st = None) && bool_decide (conn_updates st = 0)
      then ([GoUpdateConn], Returned (Some st))
      else ([], Returned (Some st))
  | FromShutdown => ([], Returned None)
  | FromUnspool buf wr | FromCh buf wr =>
      let '(acts, r) := process_packet route wr (conn st) buf in
      (acts,
       match r with
       | Returned conn => Returned (Some (mkRelay conn (conn_updates st)))
       | Panicked => Panicked
       | Blocked => Blocked
       end)
  end.

(** [relay] before its loop: no connection, no attempt counted, and one
    connect attempt started. *)
Definition relay_start : Relay * list Action := (mkRelay None 0, [GoUpdateConn]).

(** ** The relay together with its connect attempts

    Every [updateConn] runs in a goroutine of its own (started by [relay],
    or the caller's when [Update] runs it) and talks to the relay over the
    unbuffered channels [inConnUpdate] and [connUpdates]: a send and the
    matching receive are one step.  An attempt is represented by the sends
    it still has to perform. *)

Record System := mkSystem {
  relay_st : option Relay;          (* [None] once [relay] has returned *)
  attempts : list (list Event);
}.

(** What the relay receives when an attempt performs a send. *)
Definition recv_of (ev : Event) : option Recv :=
  match ev with
  | SendInConnUpdate _ b => Some (FromInConnUpdate b)
  | SendConnUpdates _ c => Some (FromConnUpdates (Some c))
  | _ => None
  end.

(** The sends of one run of [updateConn]. *)
Definition attempt_of (net : Net) (l : loc) (route : Route) : list Event :=
  (updateConn net l route).1.2.

(** The attempts the actions of an iteration start. *)
Definition started (net : Net) (l : loc) (route : Route) (acts : list Action)
    : list (list Event) :=
  match acts with
  | [GoUpdateConn] => [attempt_of net l route]
  | _ => []
  end.

Definition system_start (net : Net) (l : loc) (route : Route) : System :=
  mkSystem (Some relay_start.1) (started net l route relay_start.2).

Inductive system_step (l : loc) (route : Route) : System → System → Prop :=
| step_attempt st i ev todo msg st' atts :
    (* attempt [i] performs its next send and the relay receives it *)
    atts !! i = Some (ev :: todo) →
    recv_of ev = Some msg →
    relay_iter route st msg = ([], Returned (Some st')) →
    system_step l route (mkSystem (Some st) atts)
      (mkSystem (Some st') (<[i := todo]> atts))
| step_tick st net acts st' atts :
    relay_iter route st FromTicker = (acts, Returned (Some st')) →
    system_step l route (mkSystem (Some st) atts)
      (mkSystem (Some st') (atts ++ started net l route acts)%list)
| step_packet st msg acts st' atts :
    (match msg with FromUnspool _ _ | FromCh _ _ => True | _ => False end) →
    selectable route st msg = true →
    relay_iter route st msg = (acts, Returned (Some st')) →
    system_step l route (mkSystem (Some st) atts) (mkSystem (Some st') atts)
| step_shutdown st atts :
    relay_iter route st FromShutdown = ([], Returned None) →
    system_step l route (mkSystem (Some st) atts) (mkSystem None atts)
| step_update net o atts :
    (* [Update] with an address runs [updateConn] in the caller *)
    system_step l route (mkSystem o atts)
      (mkSystem o (atts ++ [attempt_of net l route])%list).

(** The struct a relay works on: what [Run] leaves at [l]. *)
Definition running (l : loc) (route0 : Route) : Route := (Run l route0).1.1.

(** The states of a relay that [Run] started for the struct [route0] at
    [l]. *)
Inductive reachable (l : loc) (route0 : Route) : System → Prop :=
| reach_start net :
    reachable l route0 (system_start net l (running l route0))
| reach_step s s' :
    reachable l route0 s →
    system_step l (running l route0) s s' →
    reachable l route0 s'.

(** ** The ingress and the handlers of [main]

    [statsdClient] is the global the handlers pass to [Add]; a handler's
    [Command] is the request split in words. *)

(** The newline, ["\n"]. *)
Definition nl : string := String (Ascii.ascii_of_nat 10) EmptyString.

(** What one [r.ReadLine()] answers: [(buf, isPrefix, err)]. *)
Record ReadLine := {
  rl_buf : bytes;
  rl_isPrefix : bool;
  rl_err : option error;
}.

(** What [handle] does for a connection. *)
Inductive Ingress :=
| CountIn (stat : string)          (* statsdClient.Increment(stat) *)
| ToDispatch (buf_copy : bytes).   (* to_dispatch <- buf_copy *)

(** The loop of [handle], over what the reader answers: it ends at the
    first error and at the first line that does not fit the buffer. *)
Fixpoint handle_range (reads : list ReadLine) : list Ingress :=
  match reads with
  | [] => []
  | r :: reads =>
      match rl_err r with
      | Some _ => []
      | None =>
          if rl_isPrefix r then []
          else
            CountIn "target_type=count.unit=Metric.direction=in" ::
            ToDispatch (rl_buf r ++ [x0a])%list :: handle_range reads
      end
  end.

(** The loop of [Router] over the lines that arrive on [to_dispatch]: the
    sends, the lines logged as unrouteable, and how the loop ends when it
    does not get through them. *)
Fixpoint Router_range (w : World) (first_only : bool) (bufs : list bytes)
    : list Event * list bytes * outcome unit :=
  match bufs with
  | [] => ([], [], Returned ())
  | buf :: bufs =>
      match Dispatch w buf first_only with
      | (evs, Returned routed) =>
          let '(evs', unrouteable, r) := Router_range w first_only bufs in
          ((evs ++ evs')%list,
           if routed then unrouteable else buf :: unrouteable, r)
      | (evs, Panicked) => (evs, [], Panicked)
      | (evs, Blocked) => (evs, [], Blocked)
      end
  end.

(** What a handler of the admin port leaves: the world, the events, what it
    wrote to the connection, and its result. *)
Definition tcp_result : Type :=
  World * list Event * list string * outcome (option error).

(** [tcpAddHandler(req)] *)
Definition tcpAddHandler (statsdClient : Client) (Command : list string)
    (w : World) : tcp_result :=
  match Command !! 2%nat with
  | None => (w, [], [], Panicked)                  (* index out of range *)
  | Some key =>
      let args :=
        if bool_decide (length Command = 5%nat)
        then Some ("", Command !!! 3%nat, Command !!! 4%nat)
        else if bool_decide (length Command = 6%nat)
        then Some (Command !!! 3%nat, Command !!! 4%nat, Command !!! 5%nat)
        else None in
      match args with
      | None => (w, [], [], Returned (Some "bad number of arguments"))
      | Some (patt, addr, spool_str) =>
          let spool := bool_decide (spool_str = "1") in
          match Add key patt addr spool statsdClient w with
          | (w, evs, Some err) => (w, evs, [], Returned (Some err))
          | (w, evs, None) => (w, evs, ["added" +:+ nl], Returned None)
          end
      end
  end.

(** [tcpDelHandler(req)] *)
Definition tcpDelHandler (Command : list string) (w : World) : tcp_result :=
  if bool_decide (length Command ≠ 3%nat)
  then (w, [], [], Returned (Some "bad number of arguments"))
  else
    match Del (Command !!! 2%nat) w with
    | (w, evs, Returned None) => (w, evs, ["deleted" +:+ nl], Returned None)
    | (w, evs, r) => (w, evs, [], r)
    end.

(** [tcpPattHandler(req)] *)
Definition tcpPattHandler (net : Net) (Command : list string) (w : World)
    : tcp_result :=
  match Command !! 2%nat with
  | None => (w, [], [], Panicked)                  (* index out of range *)
  | Some key =>
      let patt :=
        if bool_decide (length Command = 4%nat) then Some (Command !!! 3%nat)
        else if bool_decide (length Command = 3%nat) then Some ""
        else None in
      match patt with
      | None => (w, [], [], Returned (Some "bad number of arguments"))
      | Some patt =>
          match Update net key None (Some patt) w with
          | (w, evs, Returned None) => (w, evs, ["updated" +:+ nl], Returned None)
          | (w, evs, r) => (w, evs, [], r)
          end
      end
  end.

(** What a handler of the HTTP port answers. *)
Inductive Response :=
| http_Error (msg : string) (code : Z)
| http_Redirect (url : string) (code : Z).

Definition StatusFound : Z := 302.
Definition StatusInternalServerError : Z := 500.

(** [saveHandler], given the form values [key], [patt] and [addr]. *)
Definition saveHandler (statsdClient : Client) (key patt addr : string)
    (w : World) : World * list Event * Response :=
  match Add key patt addr false statsdClient w with
  | (w, evs, Some err) => (w, evs, http_Error err StatusInternalServerError)
  | (w, evs, None) => (w, evs, http_Redirect "/" StatusFound)
  end.

(** [updateHandler], given the form values [key], [patt] and [addr]; the
    response is [None] when the call does not return. *)
Definition updateHandler (net : Net) (key patt addr : string) (w : World)
    : World * list Event * option Response :=
  match Update net key (Some addr) (Some patt) w with
  | (w, evs, Returned (Some err)) =>
      (w, evs, Some (http_Error err StatusInternalServerError))
  | (w, evs, Returned None) => (w, evs, Some (http_Redirect "/" StatusFound))
  | (w, evs, _) => (w, evs, None)
  end.

(** ** Notions of the specification *)

(** I5: the compiled regex is the one the stored pattern compiles to. *)
Definition consistent (route : Route) : Prop :=
  ∃ regex, Compile (Patt route) = inl regex ∧ Reg route = Some regex.

(** A write that failed: an error, or fewer bytes written than given. *)
Definition write_failure (wr : WriteResult) (buf : bytes) : Prop :=
  is_Some (wr_err wr) ∨ wr_n wr < Z.of_nat (length buf).

(** A write that took the whole packet. *)
Definition write_complete (wr : WriteResult) (buf : bytes) : Prop :=
  wr_err wr = None ∧ wr_n wr = Z.of_nat (length buf).

(** I1: every key of the dispatch order has a route in the map. *)
Definition I1 (w : World) : Prop :=
  ∀ key, key ∈ KeyList (routes w) → is_Some (Map (routes w) !! key).

(** The pointers of the map lead to structs. *)
Definition valid_pointers (w : World) : Prop :=
  ∀ key l, Map (routes w) !! key = Some l → is_Some (heap w !! l).

(** The pointers of the map lead to routes that [NewRoute] built and [Run]
    started: the regex is compiled and the input channel made. *)
Definition started_routes (w : World) : Prop :=
  ∀ key l, Map (routes w) !! key = Some l →
    ∃ route, heap w !! l = Some route ∧ is_Some (Reg route) ∧
             ch route = made_chan.

(** Whether the compiled regex of the route under [key] matches [buf]. *)
Definition matches (w : World) (buf : bytes) (key : string) : bool :=
  match deref w key with
  | Some (_, route) =>
      match Reg route with
      | Some reg => Match reg buf
      | None => false
      end
  | None => false
  end.

(** The routes of the dispatch order whose regex matches [buf], in that
    order. *)
Definition matching (w : World) (buf : bytes) (keys : list string) : list loc :=
  omap (λ key, if matches w buf key then fst <$> deref w key else None) keys.

(** Whether an attempt still owes the relay the notification [b]. *)
Fixpoint owes (b : bool) (todo : list Event) : bool :=
  match todo with
  | [] => false
  | SendInConnUpdate _ b' :: todo => Bool.eqb b b' || owes b todo
  | _ :: todo => owes b todo
  end.

(** An attempt is in flight when the relay has received its Begin and not
    yet its End. *)
Definition in_flight (todo : list Event) : bool :=
  owes false todo && negb (owes true todo).

(** The number of attempts in flight. *)
Fixpoint pending (atts : list (list Event)) : Z :=
  match atts with
  | [] => 0
  | todo :: atts => (if in_flight todo then 1 else 0) + pending atts
  end.

(** What is left of a run of [updateConn] on a started route, at any point
    of the run. *)
Inductive attempt_todo (l : loc) : list Event → Prop :=
| todo_all : attempt_todo l [SendInConnUpdate l true; SendInConnUpdate l false]
| todo_all_conn c :
    attempt_todo l
      [SendInConnUpdate l true; SendConnUpdates l c; SendInConnUpdate l false]
| todo_conn c : attempt_todo l [SendConnUpdates l c; SendInConnUpdate l false]
| todo_end : attempt_todo l [SendInConnUpdate l false]
| todo_none : attempt_todo l [].

(** The invariant of the relay with its attempts: every attempt is at a
    point of a run of [updateConn], and the counter is the number of
    attempts in flight, as a Go [int]. *)
Definition counter_inv (l : loc) (s : System) : Prop :=
  Forall (attempt_todo l) (attempts s) ∧
  ∀ st, relay_st s = Some st → conn_updates st = int_wrap (pending (attempts s)).

(** A table as the program keeps it: every pointer of the map leads to a
    route built under that key, whose regex is the compilation of its
    pattern (I5), whose channels are made, and which has its queue when it
    spools (I2). *)
Definition table_wf (w : World) : Prop :=
  ∀ key l, Map (routes w) !! key = Some l →
    ∃ route, heap w !! l = Some route ∧ Key route = key ∧ consistent route ∧
      ch route = made_chan ∧ shutdown route = made_chan ∧
      inConnUpdate route = made_chan ∧ connUpdates route = made_chan ∧
      (Spool route = true → is_Some (queue route)).

(** The calls that reach the table once it runs. *)
Inductive Op :=
| OpAdd (key patt addr : string) (spool : bool) (instrument : Client)
| OpUpdate (net : Net) (key : string) (addr patt : option string)
| OpDel (key : string)
| OpDispatch (buf : bytes) (first_only : bool)
| OpList.

(** The world a call leaves. *)
Definition apply_op (w : World) (op : Op) : World :=
  match op with
  | OpAdd key patt addr spool instrument =>
      (Add key patt addr spool instrument w).1.1
  | OpUpdate net key addr patt => (Update net key addr patt w).1.1
  | OpDel key => (Del key w).1.1
  | OpDispatch _ _ => w
  | OpList => (List w).1
  end.

Definition apply_ops (w : World) (ops : list Op) : World := foldl apply_op w ops.

(** Every key of the map leads to a struct built under that key with a
    consistent regex, not yet started. *)
Definition built (h : gmap loc Route) (m : gmap string loc) : Prop :=
  ∀ k l, m !! k = Some l →
    ∃ route, h !! l = Some route ∧ Key route = k ∧ consistent route.

(** A line the reader gave whole and without error. *)
Definition complete_line (r : ReadLine) : Prop :=
  rl_err r = None ∧ rl_isPrefix r = false.

(** What [handle] does with a complete line. *)
Definition forwarded (r : ReadLine) : list Ingress :=
  [CountIn "target_type=count.unit=Metric.direction=in";
   ToDispatch (rl_buf r ++ [x0a])%list].

(** The route name a key of the configuration file stands for, if any:
    [routes.<name>] with no dot in [<name>]. *)
Definition no_dot (name : string) : Prop := Count_dot name = 0.

(** What the keys of a configuration file give the dispatch order, key by
    key: a key [routes.<name>] whose name has no dot gives [<name>], and a
    key with no dot, with more than one dot, or that does not start with
    [routes.] gives nothing. *)
Inductive reads_off : list string → list string → Prop :=
| reads_nil : reads_off [] []
| reads_route name keys names :
    no_dot name → reads_off keys names →
    reads_off (("routes." +:+ name) :: keys) (name :: names)
| reads_skip str keys names :
    Count_dot str ≠ 1 ∨ String.prefix "routes." str = false →
    reads_off keys names →
    reads_off (str :: keys) names.

End Routing.

(** ** A small regexp library

    An example library, not Go's: its patterns are the ASCII strings
    without metacharacters, each matching the inputs it occurs in, and it
    refuses every other pattern with an error text of its own.  The examples
    below use it with the patterns [""], ["foo"] and ["prod"], which Go's
    [regexp] compiles too and matches against the same lines, and with
    ["("], which Go refuses too, with another text. *)

Module Literal.

Definition metachars : list byte := String.list_byte_of_string "\.+*?()|[]{}^$".

Definition literal (pattern : string) : bool :=
  forallb (λ b, N.ltb (Byte.to_N b) 128 && negb (existsb (Byte.eqb b) metachars))
    (String.list_byte_of_string pattern).

Fixpoint has_prefix (p s : list byte) : bool :=
  match p, s with
  | [], _ => true
  | _ :: _, [] => false
  | a :: p, b :: s => Byte.eqb a b && has_prefix p s
  end.

Fixpoint occurs (p s : list byte) : bool :=
  has_prefix p s ||
  match s with
  | [] => false
  | _ :: s => occurs p s
  end.

#[export] Instance regexp : RegexpLib := {|
  Regexp := list byte;
  Compile pattern :=
    if literal pattern then inl (String.list_byte_of_string pattern)
    else inr ("error parsing regexp: " +:+ pattern);
  Match := occurs;
|}.

(** A line: the text and its newline. *)
Definition line (s : string) : list byte :=
  (String.list_byte_of_string s ++ [x0a])%list.

(** A network where every name resolves to itself and every dial gives
    connection 1. *)
Definition net_up : Net :=
  {| ResolveTCPAddr addr := inl addr; DialTCP _ := inl 1%positive |}.

(** A route definition as the configuration file gives it. *)
Definition routeDef (patt addr : string) (spool : bool) : Route :=
  mkRoute "" patt addr "" spool 1%positive None nil_chan nil_chan None None
    nil_chan nil_chan.

(** The table of a configuration with the single route
    [r1 = "" → 1.2.3.4:2003], as [main] builds and starts it. *)
Definition one_route : World :=
  match main_routes {[ "r1" := routeDef "" "1.2.3.4:2003" false ]}
          ["listen_addr"; "routes"; "routes.r1"; "routes.r1.patt"]
          "/var/spool" 1%positive with
  | inl (w, _, _) => w
  | inr _ => mkWorld ∅ (mkRoutes ∅ [] "")
  end.

(** The struct of a route [r1] as [NewRoute] builds it; [spool] says
    whether it spools. *)
Definition new_r1 (spool : bool) : Route :=
  match NewRoute "r1" "" "1.2.3.4:2003" "/var/spool" spool 1%positive with
  | inl route => route
  | inr _ => routeDef "" "1.2.3.4:2003" spool
  end.

(** The same struct as [Run] leaves it at location 1. *)
Definition started_r1 (spool : bool) : Route := running 1%positive (new_r1 spool).

(** The relay of [r1] once it has received the Begin of its first attempt. *)
Definition begun : System :=
  mkSystem (Some (mkRelay None 1))
    [[SendConnUpdates 1%positive 1%positive; SendInConnUpdate 1%positive false]].

(** A network where no name resolves. *)
Definition net_down : Net :=
  {| ResolveTCPAddr addr := inr ("lookup " +:+ addr +:+ ": no such host");
     DialTCP _ := inl 1%positive |}.

(** The relay of [r1] once its first attempt, which failed to resolve, has
    sent its Begin and its End. *)
Definition rested : System := mkSystem (Some (mkRelay None 0)) [[]].

(** The configuration of [one_route] and the keys of its file. *)
Definition one_route_defs : gmap string Route :=
  {[ "r1" := routeDef "" "1.2.3.4:2003" false ]}.
Definition one_route_keys : list string :=
  ["listen_addr"; "routes"; "routes.r1"; "routes.r1.patt"].

(** A line as the reader gives it, and an over-long one. *)
Definition read_ok (s : string) : ReadLine :=
  {| rl_buf := String.list_byte_of_string s; rl_isPrefix := false; rl_err := None |}.
Definition read_long (s : string) : ReadLine :=
  {| rl_buf := String.list_byte_of_string s; rl_isPrefix := true; rl_err := None |}.

(** The table of [one_route] after [r1] got the pattern [foo] and the
    route [r2], with the empty pattern, was added. *)
Definition r2_added : World :=
  (Add "r2" "" "9.9.9.9:2003" false 1%positive
     (Update net_up "r1" None (Some "foo") one_route).1.1).1.1.

(** The table of a configuration with the routes [prod = "prod" →
    5.6.7.8:2003] and [all = "" → 1.2.3.4:2003], in that order, as [main]
    builds and starts it. *)
Definition two_routes : World :=
  match main_routes
          (<[ "prod" := routeDef "prod" "5.6.7.8:2003" false ]>
             {[ "all" := routeDef "" "1.2.3.4:2003" false ]})
          ["listen_addr"; "routes"; "routes.prod"; "routes.prod.patt";
           "routes.prod.addr"; "routes.all"; "routes.all.patt";
           "routes.all.addr"]
          "/var/spool" 1%positive with
  | inl (w, _, _) => w
  | inr _ => mkWorld ∅ (mkRoutes ∅ [] "")
  end.

End Literal.

(** * Properties *)

Section Properties.
Context `{RegexpLib}.

(** ** Patterns *)

Lemma updatePattern_fields route pattern :
  let route' := (updatePattern route pattern).1 in
  Key route' = Key route ∧ Addr route' = Addr route ∧
  spoolDir route' = spoolDir route ∧ Spool route' = Spool route ∧
  ch route' = ch route ∧ queue route' = queue route.
Proof. unfold updatePattern. destruct (Compile pattern); simpl; auto 10. Qed.

(** C6. [updatePattern] either fails and leaves the pattern string and the
    compiled regex as they were, or succeeds and replaces both by the new
    pattern and its compilation; so the pair is consistent after every
    successful call and stays consistent across every failed one. *)
Theorem updatePattern_atomic (route : Route) (pattern : string) :
  match Compile pattern with
  | inr err =>
      updatePattern route pattern = (route, Some err)
  | inl regex =>
      ∃ route', updatePattern route pattern = (route', None) ∧
        Patt route' = pattern ∧ Reg route' = Some regex ∧ consistent route'
  end ∧
  (consistent route → consistent (updatePattern route pattern).1).
Proof.
  unfold updatePattern.
  destruct (Compile pattern) as [regex|err] eqn:Hc; simpl.
  - assert (consistent
              (mkRoute (Key route) pattern (Addr route) (spoolDir route)
                 (Spool route) (instrument route) (Some regex) (ch route)
                 (shutdown route) (queue route) (raddr route)
                 (connUpdates route) (inConnUpdate route))) as Hcons
      by (exists regex; simpl; auto).
    split; [eexists; split; [reflexivity|simpl; auto]|auto].
  - split; [reflexivity|auto].
Qed.

(** ** The relay loop *)

Lemma running_queue l route0 :
  Spool (running l route0) = true → is_Some (queue (running l route0)).
Proof. unfold running, Run; simpl. intros ->. eauto. Qed.

Lemma running_Spool l route0 : Spool (running l route0) = Spool route0.
Proof. reflexivity. Qed.

(** C5. A packet met without a connection is put on the spool queue and
    counted as spool when spooling is on, and counted as drop otherwise.
    With a connection it is counted as out and written; when the write
    fails or is short, the error is counted, the connection is closed and
    cleared, and the packet is put on the spool queue when spooling is on;
    when the write is complete the connection is kept.  The counters are
    the statsd names of the route: [direction=spool], [direction=drop],
    [direction=out] and [unit=Err] under [route=<key>]. *)
Theorem process_packet_spec (l : loc) (route0 : Route) (wr : WriteResult)
    (c : TCPConn) (buf : bytes) :
  let route := running l route0 in
  process_packet route wr None buf =
    (if Spool route
     then [Increment ("route=" +:+ Key route0 +:+
                      ".target_type=count.unit=Metric.direction=spool");
           QueuePut buf]
     else [Increment ("route=" +:+ Key route0 +:+
                      ".target_type=count.unit=Metric.direction=drop")],
     Returned None) ∧
  (write_failure wr buf →
   process_packet route wr (Some c) buf =
     (Increment ("route=" +:+ Key route0 +:+
                 ".target_type=count.unit=Metric.direction=out") ::
      ConnWrite c buf ::
      Increment ("route=" +:+ Key route0 +:+ ".target_type=count.unit=Err") ::
      ConnClose c ::
      (if Spool route then [QueuePut buf] else []),
      Returned None)) ∧
  (write_complete wr buf →
   process_packet route wr (Some c) buf =
     ([Increment ("route=" +:+ Key route0 +:+
                  ".target_type=count.unit=Metric.direction=out");
       ConnWrite c buf],
      Returned (Some c))).
Proof.
  intros route.
  assert (write_failed route c buf =
          (Increment ("route=" +:+ Key route0 +:+ ".target_type=count.unit=Err")
           :: ConnClose c :: (if Spool route then [QueuePut buf] else []),
           Returned None)) as Hwf.
  { unfold write_failed, queue_Put. destruct (Spool route) eqn:Hs; [|done].
    destruct (running_queue l route0 Hs) as [q Hq]. fold route in Hq.
    by rewrite Hq. }
  split; [|split].
  - unfold process_packet, queue_Put. destruct (Spool route) eqn:Hs; [|done].
    destruct (running_queue l route0 Hs) as [q Hq]. fold route in Hq.
    by rewrite Hq.
  - intros Hfail. unfold process_packet.
    destruct (wr_err wr) as [e|] eqn:He; [by rewrite Hwf|].
    destruct Hfail as [[e' He']|Hlt]; [congruence|].
    rewrite bool_decide_true by lia. by rewrite Hwf.
  - intros [He Hn]. unfold process_packet. rewrite He.
    by rewrite bool_decide_false by lia.
Qed.

(** C7. On a tick the relay starts a connect attempt exactly when the
    connection is absent and no attempt is pending; a tick met while
    connected or while an attempt is in flight starts nothing and changes
    nothing.  The ticker's period is 60 seconds. *)
Theorem tick_starts_attempt (route : Route) (st : Relay) :
  period_assure_conn = 60 * 1000000000 ∧
  (GoUpdateConn ∈ (relay_iter route st FromTicker).1 ↔
   conn st = None ∧ conn_updates st = 0) ∧
  (relay_iter route st FromTicker).1 =
    (if bool_decide (conn st = None ∧ conn_updates st = 0)
     then [GoUpdateConn] else []) ∧
  ∀ st', (relay_iter route st FromTicker).2 = Returned (Some st') → st' = st.
Proof.
  split; [reflexivity|].
  destruct (decide (conn st = None ∧ conn_updates st = 0)) as [[Hc Hn]|Hno].
  - assert (relay_iter route st FromTicker =
            ([GoUpdateConn], Returned (Some st))) as ->.
    { unfold relay_iter, to_unspool. rewrite Hc, Hn.
      by rewrite bool_decide_false by (by intros []). }
    rewrite bool_decide_true by done. cbn [fst snd].
    split; [split; [done|intros _; apply list_elem_of_here]|].
    split; [done|congruence].
  - assert ((relay_iter route st FromTicker).1 = []) as Hacts.
    { unfold relay_iter.
      destruct (to_unspool route st && bool_decide (queue route = None)); [done|].
      destruct (bool_decide (conn st = None)) eqn:Hc; [|done].
      destruct (bool_decide (conn_updates st = 0)) eqn:Hn; [|done].
      apply bool_decide_eq_true in Hc, Hn. by destruct Hno. }
    rewrite Hacts, bool_decide_false by done.
    split; [split; [by intros ?%elem_of_nil|done]|].
    split; [done|]. unfold relay_iter.
    destruct (to_unspool route st && bool_decide (queue route = None)); [done|].
    destruct (bool_decide (conn st = None) && bool_decide (conn_updates st = 0));
      cbn [snd]; congruence.
Qed.

(** ** The routing table *)

Lemma deref_Some w key l route :
  deref w key = Some (l, route) ↔
  Map (routes w) !! key = Some l ∧ heap w !! l = Some route.
Proof.
  unfold deref. destruct (Map (routes w) !! key) as [l'|]; simpl.
  - destruct (heap w !! l') as [route'|] eqn:Hl; simpl.
    + split; [by intros [= <- <-]|]. intros [[= <-] Hr]. congruence.
    + split; [done|]. intros [[= <-] Hr]. congruence.
  - split; [done|by intros [? _]].
Qed.

Lemma started_routes_valid w : started_routes w → valid_pointers w.
Proof. intros Hs key l Hl. destruct (Hs key l Hl) as (route & -> & _). eauto. Qed.

Lemma elem_of_matching w buf keys l :
  l ∈ matching w buf keys ↔
  ∃ key route reg, key ∈ keys ∧ deref w key = Some (l, route) ∧
                   Reg route = Some reg ∧ Match reg buf = true.
Proof.
  unfold matching. rewrite list_elem_of_omap. unfold matches. split.
  - intros (key & Hkey & Hm).
    destruct (deref w key) as [[l' route]|] eqn:Hd; [|done].
    destruct (Reg route) as [reg|] eqn:Hreg; [|done].
    destruct (Match reg buf) eqn:Hmatch; [|done].
    simpl in Hm. injection Hm as ->. eauto 10.
  - intros (key & route & reg & Hkey & Hd & Hreg & Hmatch).
    exists key. split; [done|]. by rewrite Hd, Hreg, Hmatch.
Qed.

Lemma matching_cons w buf key keys l route reg :
  deref w key = Some (l, route) → Reg route = Some reg →
  matching w buf (key :: keys) =
    if Match reg buf then l :: matching w buf keys else matching w buf keys.
Proof.
  intros Hd Hreg. unfold matching, matches. cbn [omap list_omap].
  rewrite Hd, Hreg. by destruct (Match reg buf).
Qed.

(** The loop of [Dispatch], from any point of the key list on. *)
Lemma Dispatch_range_spec w buf first_only keys routed :
  started_routes w →
  (∀ key, key ∈ keys → is_Some (Map (routes w) !! key)) →
  Dispatch_range w buf first_only keys routed =
    ((λ l, SendCh l buf) <$>
       (if first_only then take 1 (matching w buf keys) else matching w buf keys),
     Returned (routed || bool_decide (matching w buf keys ≠ []))).
Proof.
  intros Hs. revert routed.
  induction keys as [|key keys IH]; intros routed Hkeys.
  - simpl. destruct first_only; by rewrite orb_false_r.
  - destruct (Hkeys key) as [l Hl]; [apply list_elem_of_here|].
    destruct (Hs key l Hl) as (route & Hroute & [reg Hreg] & Hch).
    assert (deref w key = Some (l, route)) as Hd by by apply deref_Some.
    assert (∀ key', key' ∈ keys → is_Some (Map (routes w) !! key')) as Hkeys'
      by (intros key' Hin; apply Hkeys; by apply list_elem_of_further).
    rewrite (matching_cons w buf key keys l route reg Hd Hreg).
    cbn [Dispatch_range]. rewrite Hd, Hreg, Hch.
    destruct (Match reg buf) eqn:Hmatch.
    + rewrite bool_decide_true, orb_true_r by done.
      destruct first_only; [done|]. by rewrite (IH true Hkeys').
    + apply (IH routed Hkeys').
Qed.

(** C4. On a table where every key of the dispatch order has a started
    route, [Dispatch] sends the line to every route of the order whose regex
    matches it, in order, when [first_only] is off, and only to the first of
    them when it is on; it blocks on no send and returns true exactly when
    some route of the order matched.  A route of the map that is not in the
    order gets nothing; when every key of the map is in the order, the
    routes that receive the line are all the routes of the table whose
    regex matches. *)
Theorem Dispatch_spec (w : World) (buf : bytes) :
  I1 w → started_routes w →
  let receivers := matching w buf (KeyList (routes w)) in
  Dispatch w buf false =
    ((λ l, SendCh l buf) <$> receivers, Returned (bool_decide (receivers ≠ []))) ∧
  Dispatch w buf true =
    ((λ l, SendCh l buf) <$> take 1 receivers,
     Returned (bool_decide (receivers ≠ []))) ∧
  (∀ l, l ∈ receivers ↔
     ∃ key route reg, key ∈ KeyList (routes w) ∧ deref w key = Some (l, route) ∧
                      Reg route = Some reg ∧ Match reg buf = true) ∧
  ((∀ key, is_Some (Map (routes w) !! key) → key ∈ KeyList (routes w)) →
   ∀ l, l ∈ receivers ↔
     ∃ key route reg, deref w key = Some (l, route) ∧
                      Reg route = Some reg ∧ Match reg buf = true).
Proof.
  intros HI1 Hs receivers. unfold Dispatch.
  rewrite !Dispatch_range_spec by done. fold receivers.
  split; [done|]. split; [done|]. split; [apply elem_of_matching|].
  intros Hrest l. unfold receivers. rewrite elem_of_matching. split.
  - intros (key & route & reg & _ & ?). eauto.
  - intros (key & route & reg & Hd & ?). exists key, route, reg.
    split; [|done]. apply Hrest. apply deref_Some in Hd as [-> _]. eauto.
Qed.

Lemma Copy_Some h l route :
  h !! l = Some route →
  Copy h l = Some (<[fresh (dom h) := Copy_struct route]> h, fresh (dom h)).
Proof. intros Hl. unfold Copy. by rewrite Hl. Qed.

Lemma Copy_fresh h l h' p : Copy h l = Some (h', p) → h !! p = None.
Proof.
  unfold Copy. destruct (h !! l); [|done]. intros [= <- <-].
  apply not_elem_of_dom, is_fresh.
Qed.

(** The loop of [List]: each entry leaves the copy of its route under its
    key, whatever the order of the entries. *)
Lemma List_range_spec h (entries : list (string * loc)) ret0 :
  NoDup entries.*1 →
  (∀ k l, (k, l) ∈ entries → is_Some (h !! l)) →
  ∃ ret, List_range h entries ret0 = Returned ret ∧
    ∀ key, ret !! key =
      match (list_to_map entries : gmap string loc) !! key with
      | Some l => Copy_struct <$> h !! l
      | None => ret0 !! key
      end.
Proof.
  revert ret0. induction entries as [|[k v] entries IH]; intros ret0 Hnd Hval.
  - exists ret0. split; [done|]. intros key.
    by rewrite list_to_map_nil, lookup_empty.
  - apply NoDup_cons in Hnd as [Hk Hnd].
    destruct (Hval k v) as [route Hv]; [apply list_elem_of_here|].
    destruct (IH (<[k := Copy_struct route]> ret0) Hnd) as (ret & Hret & Hlook).
    { intros k' l' Hin. apply (Hval k' l'). by apply list_elem_of_further. }
    exists ret. cbn [List_range]. rewrite (Copy_Some h v route Hv).
    rewrite lookup_insert_eq. split; [done|].
    intros key. rewrite Hlook, list_to_map_cons.
    destruct (decide (k = key)) as [<-|Hne].
    + rewrite lookup_insert_eq.
      rewrite (not_elem_of_list_to_map_1 _ k Hk). by rewrite lookup_insert_eq, Hv.
    + by rewrite !lookup_insert_ne by done.
Qed.

(** C9. [List] returns, under each key of the table, a copy that agrees
    with the stored route on [Key], [Patt], [Addr] and [Spool], and nothing
    under other keys; it leaves the table and the stored routes as they
    are; and the pointer a copy is made behind is no pointer of the table,
    so a store through it reaches no stored route. *)
Theorem List_spec (w : World) :
  valid_pointers w →
  ∃ ret, List w = (w, Returned ret) ∧
    (∀ key, ret !! key = (Copy_struct ∘ snd) <$> deref w key) ∧
    (∀ key l route, deref w key = Some (l, route) →
       ∃ copy, ret !! key = Some copy ∧
         Key copy = Key route ∧ Patt copy = Patt route ∧
         Addr copy = Addr route ∧ Spool copy = Spool route) ∧
    (∀ key l h' p route' l0,
       Map (routes w) !! key = Some l → Copy (heap w) l = Some (h', p) →
       is_Some (heap w !! l0) → <[p := route']> h' !! l0 = heap w !! l0).
Proof.
  intros Hval.
  destruct (List_range_spec (heap w) (map_to_list (Map (routes w))) ∅)
    as (ret & Hret & Hlook).
  { apply NoDup_fst_map_to_list. }
  { intros k l Hin. apply (Hval k l). by apply elem_of_map_to_list. }
  assert (∀ key, ret !! key = (Copy_struct ∘ snd) <$> deref w key) as Hall.
  { intros key. rewrite Hlook, list_to_map_to_list, lookup_empty. unfold deref.
    destruct (Map (routes w) !! key) as [l|]; [|done]. simpl.
    by destruct (heap w !! l). }
  exists ret. unfold List. rewrite Hret.
  split; [done|]. split; [done|]. split.
  - intros key l route Hd. exists (Copy_struct route).
    by rewrite Hall, Hd.
  - intros key l h' p route' l0 Hl Hcopy [route0 Hl0].
    pose proof (Copy_fresh _ _ _ _ Hcopy) as Hp.
    assert (p ≠ l0) as Hne by congruence.
    rewrite lookup_insert_ne by done.
    unfold Copy in Hcopy. destruct (heap w !! l); [|done].
    injection Hcopy as <- <-. rewrite lookup_insert_ne; [done|congruence].
Qed.

(** C10. [Update] of a present key with neither an address nor a pattern
    returns no error, sends nothing and leaves the world, and so the
    pattern, the regex and the address of every route, as it is. *)
Theorem Update_nil_nil (net : Net) (key : string) (w : World) :
  valid_pointers w → is_Some (Map (routes w) !! key) →
  Update net key None None w = (w, [], Returned None).
Proof.
  intros Hval [l Hl]. unfold Update. rewrite Hl.
  destruct (Hval key l Hl) as [route ->]. done.
Qed.

(** *** What the mutations keep *)

Lemma NewRoute_inl key patt addr dir spool instr route :
  NewRoute key patt addr dir spool instr = inl route →
  ∃ regex, Compile patt = inl regex ∧
    route = mkRoute key patt addr dir spool instr (Some regex)
              nil_chan nil_chan None None nil_chan nil_chan.
Proof.
  unfold NewRoute, updatePattern.
  destruct (Compile patt) as [regex|err]; [|done].
  intros [= <-]. eauto.
Qed.

Lemma updateConn_keeps net l route :
  let route' := (updateConn net l route).1.1 in
  Key route' = Key route ∧ Patt route' = Patt route ∧ Addr route' = Addr route ∧
  Reg route' = Reg route ∧ ch route' = ch route.
Proof.
  unfold updateConn. destruct (inConnUpdate route); [done|].
  destruct (ResolveTCPAddr net (Addr route)) as [raddr|err]; [|done].
  cbn [connUpdates]. destruct (DialTCP net raddr) as [c|err]; [|done].
  by destruct (connUpdates route).
Qed.

(** [Add] of a new key with a valid pattern returns no error, starts a
    relay for a fresh struct and puts it in the map under the key; it leaves
    the key list as it is. *)
Lemma Add_new key patt addr spool instr w regex :
  Map (routes w) !! key = None → Compile patt = inl regex →
  ∃ l route,
    Add key patt addr spool instr w =
      (mkWorld (<[l := route]> (heap w))
         (mkRoutes (<[key := l]> (Map (routes w))) (KeyList (routes w))
            (SpoolDir (routes w))),
       [GoRelay l], None) ∧
    heap w !! l = None ∧
    Key route = key ∧ Patt route = patt ∧ Addr route = addr ∧
    Spool route = spool ∧ Reg route = Some regex ∧ ch route = made_chan.
Proof.
  intros Hkey Hc. unfold Add, NewRoute, updatePattern, Run. rewrite Hkey, Hc.
  cbn [Key Patt Addr spoolDir Spool instrument Reg queue raddr].
  eexists _, _. split; [reflexivity|].
  split; [apply not_elem_of_dom, is_fresh|done].
Qed.

Lemma started_routes_Add key patt addr spool instr w :
  started_routes w → started_routes (Add key patt addr spool instr w).1.1.
Proof.
  intros Hs. unfold Add.
  destruct (Map (routes w) !! key) as [l0|] eqn:Hkey; [done|].
  destruct (NewRoute key patt addr (SpoolDir (routes w)) spool instr)
    as [route|err] eqn:Hnew; [|done].
  apply NewRoute_inl in Hnew as (regex & _ & ->).
  cbn [Run fst snd]. intros key' l'. cbn [routes heap Map].
  assert (heap w !! fresh (dom (heap w)) = None) as Hfresh
    by apply not_elem_of_dom, is_fresh.
  destruct (decide (key = key')) as [<-|Hne].
  - rewrite lookup_insert_eq. intros [= <-]. rewrite lookup_insert_eq.
    eexists. split; [done|]. cbn [Reg ch]. eauto.
  - rewrite lookup_insert_ne by done. intros Hl'.
    destruct (Hs key' l' Hl') as (route' & Hroute' & ?).
    rewrite lookup_insert_ne by congruence. eauto.
Qed.

Lemma started_routes_Update net key addr patt w :
  started_routes w → started_routes (Update net key addr patt w).1.1.
Proof.
  intros Hs. unfold Update.
  destruct (Map (routes w) !! key) as [l|] eqn:Hkey; [|done].
  destruct (heap w !! l) as [route|] eqn:Hl; [|done].
  assert (∀ route', Reg route' = Reg route ∨ is_Some (Reg route') →
            ch route' = ch route →
            started_routes (mkWorld (<[l := route']> (heap w)) (routes w)))
    as Hput.
  { intros route' Hreg Hch key' l' Hl'. cbn [routes heap] in *.
    destruct (Hs key' l' Hl') as (route0 & Hroute0 & Hreg0 & Hch0).
    destruct (decide (l = l')) as [<-|Hne].
    - rewrite lookup_insert_eq. exists route'. split; [done|].
      assert (route0 = route) as -> by congruence.
      split; [|congruence]. destruct Hreg as [->|]; done.
    - rewrite lookup_insert_ne by done. eauto. }
  destruct addr as [addr|].
  - destruct (updateConn_keeps net l route) as (_ & _ & _ & Hreg & Hch).
    destruct (updateConn net l route) as [[route' evs] r]. cbn [fst snd] in *.
    apply Hput; auto.
  - destruct patt as [patt|]; [|done].
    destruct (updatePattern_fields route patt) as (_ & _ & _ & _ & Hch & _).
    unfold updatePattern in *. destruct (Compile patt) as [regex|err];
      cbn [fst snd] in *; apply Hput; cbn [Reg]; eauto.
Qed.

Lemma started_routes_Del key w :
  started_routes w → started_routes (Del key w).1.1.
Proof.
  intros Hs.
  assert (started_routes
            (mkWorld (heap w)
               (mkRoutes (delete key (Map (routes w))) (KeyList (routes w))
                  (SpoolDir (routes w))))) as Hdel.
  { intros key' l'. cbn [routes heap Map]. intros Hl'.
    apply lookup_delete_Some in Hl' as [_ Hl']. eauto. }
  unfold Del. destruct (Map (routes w) !! key) as [l|]; [|done].
  destruct (heap w !! l) as [route|]; [|done].
  by destruct (Shutdown l route).
Qed.

Lemma I1_Add key patt addr spool instr w :
  I1 w → I1 (Add key patt addr spool instr w).1.1.
Proof.
  intros HI. unfold Add.
  destruct (Map (routes w) !! key) as [l0|] eqn:Hkey; [done|].
  destruct (NewRoute key patt addr (SpoolDir (routes w)) spool instr); [|done].
  cbn [Run fst snd]. intros key' Hin. cbn [routes Map KeyList] in *.
  destruct (decide (key = key')) as [<-|Hne].
  - rewrite lookup_insert_eq. eauto.
  - rewrite lookup_insert_ne by done. by apply HI.
Qed.

Lemma I1_Update net key addr patt w :
  I1 w → I1 (Update net key addr patt w).1.1.
Proof.
  intros HI. unfold Update.
  destruct (Map (routes w) !! key) as [l|]; [|done].
  destruct (heap w !! l) as [route|]; [|done].
  destruct addr as [addr|].
  - by destruct (updateConn net l route) as [[route' evs] r].
  - destruct patt as [patt|]; [|done].
    by destruct (updatePattern route patt).
Qed.

(** [Del] of a present key takes the key out of the map and leaves the key
    list as it is. *)
Lemma Del_present key w l :
  Map (routes w) !! key = Some l →
  Map (routes (Del key w).1.1) !! key = None ∧
  KeyList (routes (Del key w).1.1) = KeyList (routes w).
Proof.
  intros Hl. unfold Del. rewrite Hl.
  destruct (heap w !! l) as [route|].
  - destruct (Shutdown l route). cbn [fst snd routes Map KeyList].
    by rewrite lookup_delete_eq.
  - cbn [fst snd routes Map KeyList]. by rewrite lookup_delete_eq.
Qed.

(** Once a key of the dispatch order is deleted, I1 is broken. *)
Lemma Del_breaks_order key w l :
  Map (routes w) !! key = Some l → key ∈ KeyList (routes w) →
  ¬ I1 (Del key w).1.1.
Proof.
  intros Hl Hin HI. destruct (Del_present key w l Hl) as [Hgone Hkeys].
  destruct (HI key) as [l' Hl']; [by rewrite Hkeys|congruence].
Qed.

(** [Update] with an address returns what [updateConn] returns, whatever
    the pattern argument: the pattern and the regex of the route stay. *)
Lemma Update_addr_keeps_pattern net key addr patt w l route :
  deref w key = Some (l, route) →
  ∃ route', heap (Update net key (Some addr) patt w).1.1 !! l = Some route' ∧
    Patt route' = Patt route ∧ Reg route' = Reg route ∧ Addr route' = Addr route.
Proof.
  intros [Hl Hroute]%deref_Some. unfold Update. rewrite Hl, Hroute.
  destruct (updateConn_keeps net l route) as (_ & Hpatt & Haddr & Hreg & _).
  destruct (updateConn net l route) as [[route' evs] r]. cbn [fst snd heap] in *.
  exists route'. by rewrite lookup_insert_eq.
Qed.

(** ** The pending-attempt counter *)

Lemma int_wrap_small z : - 2 ^ 63 ≤ z < 2 ^ 63 → int_wrap z = z.
Proof. intros Hz. unfold int_wrap. rewrite Z.mod_small; lia. Qed.

Lemma int_wrap_add z k : int_wrap (int_wrap z + k) = int_wrap (z + k).
Proof.
  unfold int_wrap.
  replace ((z + 2 ^ 63) mod 2 ^ 64 - 2 ^ 63 + k + 2 ^ 63)
    with ((z + 2 ^ 63) mod 2 ^ 64 + k) by lia.
  replace (z + k + 2 ^ 63) with (z + 2 ^ 63 + k) by lia.
  by rewrite Zplus_mod_idemp_l.
Qed.

Lemma int_wrap_sub z k : int_wrap (int_wrap z - k) = int_wrap (z - k).
Proof. apply (int_wrap_add z (- k)). Qed.

Lemma pending_app atts atts' : pending (atts ++ atts') = pending atts + pending atts'.
Proof. induction atts as [|todo atts IH]; simpl; lia. Qed.

Lemma pending_bounds atts : 0 ≤ pending atts ≤ Z.of_nat (length atts).
Proof. induction atts as [|todo atts IH]; simpl; [lia|]. destruct (in_flight todo); lia. Qed.

Lemma pending_insert atts i old new :
  atts !! i = Some old →
  pending (<[i := new]> atts) =
    pending atts - (if in_flight old then 1 else 0) + (if in_flight new then 1 else 0).
Proof.
  revert i. induction atts as [|todo atts IH]; intros [|i] Hi; try done.
  - injection Hi as ->. simpl. lia.
  - simpl. rewrite (IH i Hi). lia.
Qed.

Lemma attempt_of_running net l route0 :
  attempt_todo l (attempt_of net l (running l route0)) ∧
  in_flight (attempt_of net l (running l route0)) = false.
Proof.
  unfold attempt_of, updateConn, running, Run; cbn [fst snd inConnUpdate Addr].
  destruct (ResolveTCPAddr net (Addr route0)) as [raddr|err];
    [|split; [constructor|done]].
  destruct (DialTCP net raddr) as [new_conn|err]; cbn [connUpdates fst snd];
    (split; [constructor|done]).
Qed.

Lemma started_running net l route0 acts :
  Forall (attempt_todo l) (started net l (running l route0) acts) ∧
  pending (started net l (running l route0) acts) = 0.
Proof.
  unfold started.
  destruct acts as [|[] [|]]; try (split; [constructor|done]).
  destruct (attempt_of_running net l route0) as [Htodo Hfl].
  split; [by repeat constructor|]. simpl. by rewrite Hfl.
Qed.

Lemma relay_iter_tick_state route st acts st' :
  relay_iter route st FromTicker = (acts, Returned (Some st')) → st' = st.
Proof.
  unfold relay_iter.
  destruct (to_unspool route st && bool_decide (queue route = None)); [done|].
  destruct (bool_decide (conn st = None) && bool_decide (conn_updates st = 0));
    by intros [= _ <-].
Qed.

Lemma relay_iter_packet_conn_updates route st msg acts st' :
  (match msg with FromUnspool _ _ | FromCh _ _ => True | _ => False end) →
  relay_iter route st msg = (acts, Returned (Some st')) →
  conn_updates st' = conn_updates st.
Proof.
  intros Hmsg. unfold relay_iter.
  destruct (to_unspool route st && bool_decide (queue route = None)); [done|].
  destruct msg as [| | | |buf wr|buf wr]; try done;
    destruct (process_packet route wr (conn st) buf) as [acts' [c| |]];
    by intros [= _ <-].
Qed.

Lemma counter_inv_start net l route0 :
  counter_inv l (system_start net l (running l route0)).
Proof.
  destruct (started_running net l route0 relay_start.2) as [Hall Hp].
  split; [done|]. intros st [= <-]. cbn [attempts system_start].
  by rewrite Hp.
Qed.

Lemma counter_inv_step l route0 s s' :
  counter_inv l s → system_step l (running l route0) s s' → counter_inv l s'.
Proof.
  intros [Hall Hcnt] Hstep.
  destruct Hstep as [st i ev todo msg st' atts Hi Hrecv Hiter
                    |st net acts st' atts Hiter
                    |st msg acts st' atts Hmsg Hsel Hiter
                    |st atts Hiter
                    |net o atts];
    unfold counter_inv; cbn [attempts relay_st] in *.
  - (* an attempt sends, the relay receives *)
    specialize (Hcnt st eq_refl).
    pose proof (proj1 (Forall_lookup _ _) Hall i _ Hi) as Htodo.
    assert (attempt_todo l todo ∧
            conn_updates st' =
              int_wrap (pending atts - (if in_flight (ev :: todo) then 1 else 0)
                        + (if in_flight todo then 1 else 0))) as [Htodo' Hst'].
    { unfold relay_iter in Hiter.
      destruct (to_unspool (running l route0) st &&
                bool_decide (queue (running l route0) = None)); [done|].
      inversion Htodo; subst; injection Hrecv as <-;
        injection Hiter as <-; cbn [conn_updates in_flight owes Bool.eqb orb andb negb];
        (split; [by constructor|]);
        rewrite ?Hcnt, ?int_wrap_add, ?int_wrap_sub; f_equal; lia. }
    split.
    + apply Forall_insert; done.
    + intros ? [= <-]. by rewrite (pending_insert _ _ _ _ Hi).
  - (* a tick *)
    destruct (started_running net l route0 acts) as [Hnew Hp].
    split; [by apply Forall_app|].
    intros ? [= <-]. rewrite pending_app, Hp, Z.add_0_r.
    rewrite (relay_iter_tick_state _ _ _ _ Hiter). auto.
  - (* a packet *)
    split; [done|]. intros ? [= <-].
    rewrite (relay_iter_packet_conn_updates _ _ _ _ _ Hmsg Hiter). auto.
  - (* shutdown *)
    split; [done|]. intros ? [=].
  - (* [Update] starts an attempt *)
    destruct (attempt_of_running net l route0) as [Htodo Hfl].
    split; [apply Forall_app; split; [done|by repeat constructor]|].
    intros st Hst. rewrite pending_app. simpl. rewrite Hfl, !Z.add_0_r. auto.
Qed.

Lemma reachable_counter_inv l route0 s : reachable l route0 s → counter_inv l s.
Proof.
  induction 1 as [net|s s' _ IH Hstep].
  - apply counter_inv_start.
  - by apply (counter_inv_step l route0 s).
Qed.

(** C8. In every state the relay loop reaches, as long as fewer than 2^63
    connect attempts are in flight at once, the counter [conn_updates] is
    the number of attempts whose Begin was received and whose End was not,
    and so it is never negative. *)
Theorem conn_updates_nonneg (l : loc) (route0 : Route) (s : System) (st : Relay) :
  reachable l route0 s → relay_st s = Some st →
  pending (attempts s) < 2 ^ 63 →
  conn_updates st = pending (attempts s) ∧ 0 ≤ conn_updates st.
Proof.
  intros Hreach Hst Hlen.
  destruct (reachable_counter_inv l route0 s Hreach) as [_ Hcnt].
  pose proof (pending_bounds (attempts s)) as Hb.
  rewrite (Hcnt st Hst), int_wrap_small by lia. lia.
Qed.

End Properties.

(** * Further properties of the code *)

Section Further.
Context `{RegexpLib}.

(** Membership in a list that is written out. *)
Ltac in_list := repeat first [apply list_elem_of_here | apply list_elem_of_further].
Ltac notin_list H :=
  repeat (apply elem_of_cons in H as [H|H]; [discriminate H|]);
  by apply elem_of_nil in H.

(** ** Routes *)

(** X1. A route as [NewRoute] returns it cannot be shut down: [Shutdown]
    answers "not running yet" and sends nothing.  Once [Run] it accepts the
    shutdown signal.  A [Copy] of a running route is again not running. *)
Theorem Shutdown_needs_Run (key patt addr dir : string) (spool : bool)
    (instr : Client) (route : Route) (l : loc) :
  NewRoute key patt addr dir spool instr = inl route →
  Shutdown l route = ([], Some "not running yet") ∧
  Shutdown l (running l route) = ([SendShutdown l], None) ∧
  Shutdown l (Copy_struct (running l route)) = ([], Some "not running yet").
Proof.
  intros (regex & _ & ->)%NewRoute_inl. done.
Qed.

(** X2. On a route whose channels are made, [updateConn] sends Begin first
    and End last and returns.  It returns no error exactly when the address
    resolves and the dial succeeds, and then sends the new connection once
    in between; when either fails it sends nothing in between and returns
    that error.  It never changes the address of the route. *)
Theorem updateConn_bracket (net : Net) (l : loc) (route : Route) :
  inConnUpdate route = made_chan → connUpdates route = made_chan →
  ∃ route' mid r,
    updateConn net l route =
      (route', SendInConnUpdate l true :: mid ++ [SendInConnUpdate l false],
       Returned r) ∧
    Addr route' = Addr route ∧
    match ResolveTCPAddr net (Addr route) with
    | inr err => mid = [] ∧ r = Some err ∧ route' = route
    | inl ra =>
        raddr route' = Some ra ∧
        match DialTCP net ra with
        | inr err => mid = [] ∧ r = Some err
        | inl new_conn => mid = [SendConnUpdates l new_conn] ∧ r = None
        end
    end.
Proof.
  intros Hin Hconn. unfold updateConn. rewrite Hin.
  destruct (ResolveTCPAddr net (Addr route)) as [ra|err].
  - cbn [connUpdates]. rewrite Hconn.
    destruct (DialTCP net ra) as [new_conn|err].
    + eexists _, [SendConnUpdates l new_conn], None. by repeat split.
    + eexists _, [], (Some err). by repeat split.
  - exists route, [], (Some err). by repeat split.
Qed.

(** ** The relay *)

(** X3. A relay never loses a packet while it spools: whatever the write
    answers, the packet is put on the queue unless the connection took all
    of it, and [process_packet] returns.  A relay that does not spool never
    puts anything on the queue.  In both cases the connection afterwards is
    the one before or none: [process_packet] never makes a connection. *)
Theorem process_packet_no_loss (l : loc) (route0 : Route) (wr : WriteResult)
    (conn : option TCPConn) (buf : bytes) :
  let route := running l route0 in
  ∃ acts conn',
    process_packet route wr conn buf = (acts, Returned conn') ∧
    (Spool route = true →
     QueuePut buf ∈ acts ∨
     ∃ c, conn = Some c ∧ conn' = Some c ∧ ConnWrite c buf ∈ acts ∧
          write_complete wr buf) ∧
    (Spool route = false → ∀ b, QueuePut b ∉ acts) ∧
    (conn' = conn ∨ conn' = None).
Proof.
  intros route.
  assert (Spool route = true → is_Some (queue route)) as Hq
    by apply running_queue.
  unfold process_packet, write_failed, queue_Put.
  destruct (Spool route) eqn:Hs.
  - destruct Hq as [q ->]; [done|].
    destruct conn as [c|].
    + destruct (wr_err wr) as [e|] eqn:He; [|case_bool_decide as Hn];
        eexists _, _; (split; [reflexivity|]);
        (split; [intros _|split; [done|auto]]).
      * left. in_list.
      * left. in_list.
      * right. exists c. split; [done|]. split; [done|].
        split; [in_list|]. split; [done|]. by rewrite Hn.
    + eexists _, _. split; [reflexivity|].
      split; [intros _; left; in_list|]. split; [done|auto].
  - destruct conn as [c|].
    + destruct (wr_err wr) as [e|] eqn:He; [|case_bool_decide as Hn];
        eexists _, _; (split; [reflexivity|]);
        (split; [done|split; [intros _ b Hin; notin_list Hin|auto]]).
    + eexists _, _. split; [reflexivity|].
      split; [done|]. split; [intros _ b Hin; notin_list Hin|auto].
Qed.

Lemma process_packet_conn route wr conn buf conn' :
  (process_packet route wr conn buf).2 = Returned conn' →
  conn' = conn ∨ conn' = None.
Proof.
  unfold process_packet, write_failed, queue_Put.
  destruct conn as [c|].
  - destruct (wr_err wr); [|case_bool_decide];
      destruct (Spool route); destruct (queue route); cbn [snd];
      intros [= <-]; auto.
  - destruct (Spool route); destruct (queue route); cbn [snd];
      intros [= <-]; auto.
Qed.

(** X4. Only a message on [connUpdates] gives the relay a connection: any
    other case of the select leaves the connection as it is or clears it.
    Only a message on [inConnUpdate] changes the counter of pending
    attempts. *)
Theorem relay_iter_conn (route : Route) (st st' : Relay) (msg : Recv)
    (acts : list Action) :
  relay_iter route st msg = (acts, Returned (Some st')) →
  ((∀ c, msg ≠ FromConnUpdates c) → conn st' = conn st ∨ conn st' = None) ∧
  ((∀ b, msg ≠ FromInConnUpdate b) → conn_updates st' = conn_updates st).
Proof.
  unfold relay_iter.
  destruct (to_unspool route st && bool_decide (queue route = None)); [done|].
  destruct msg as [[|]|c| | |buf wr|buf wr].
  - intros [= _ <-]. split; [auto|]. intros Hb. by destruct (Hb true).
  - intros [= _ <-]. split; [auto|]. intros Hb. by destruct (Hb false).
  - intros [= _ <-]. split; [|done]. intros Hc. by destruct (Hc c).
  - destruct (bool_decide (conn st = None) && bool_decide (conn_updates st = 0));
      intros [= _ <-]; auto.
  - done.
  - pose proof (process_packet_conn route wr (conn st) buf) as Hc.
    destruct (process_packet route wr (conn st) buf) as [acts' [c'| |]];
      [|done..]. intros [= _ <-]. cbn [fst snd] in *. split; [|done].
    intros _. apply (Hc c' eq_refl).
  - pose proof (process_packet_conn route wr (conn st) buf) as Hc.
    destruct (process_packet route wr (conn st) buf) as [acts' [c'| |]];
      [|done..]. intros [= _ <-]. cbn [fst snd] in *. split; [|done].
    intros _. apply (Hc c' eq_refl).
Qed.

(** X5. Whenever every connect attempt has run to its end, the counter of
    the relay is back at zero: the gate of the ticker is open again. *)
Theorem conn_updates_zero_at_rest (l : loc) (route0 : Route) (s : System)
    (st : Relay) :
  reachable l route0 s → relay_st s = Some st →
  Forall (λ todo, todo = []) (attempts s) →
  conn_updates st = 0.
Proof.
  intros Hreach Hst Hdone.
  destruct (reachable_counter_inv l route0 s Hreach) as [_ Hcnt].
  rewrite (Hcnt st Hst).
  assert (pending (attempts s) = 0) as ->; [|done].
  induction Hdone as [|todo atts -> _ IH]; [done|]. simpl. by rewrite IH.
Qed.

(** ** The routing table *)

Lemma World_eta w : mkWorld (heap w) (routes w) = w.
Proof. by destruct w. Qed.

Lemma Routes_eta r : mkRoutes (Map r) (KeyList r) (SpoolDir r) = r.
Proof. by destruct r. Qed.

Lemma fresh_heap (h : gmap loc Route) : h !! fresh (dom h) = None.
Proof. apply not_elem_of_dom, is_fresh. Qed.

(** What a successful [Add] does, in full. *)
Lemma Add_success key patt addr spool instr w regex :
  Map (routes w) !! key = None → Compile patt = inl regex →
  let l := fresh (dom (heap w)) in
  let route0 := mkRoute key patt addr (SpoolDir (routes w)) spool instr
                  (Some regex) nil_chan nil_chan None None nil_chan nil_chan in
  NewRoute key patt addr (SpoolDir (routes w)) spool instr = inl route0 ∧
  Add key patt addr spool instr w =
    (mkWorld (<[l := running l route0]> (heap w))
       (mkRoutes (<[key := l]> (Map (routes w))) (KeyList (routes w))
          (SpoolDir (routes w))),
     [GoRelay l], None).
Proof.
  intros Hkey Hc. unfold Add, NewRoute, updatePattern. by rewrite Hkey, Hc.
Qed.

(** [Add] changes the table only when the key is new and the pattern
    compiles. *)
Lemma Add_cases key patt addr spool instr w :
  (Add key patt addr spool instr w).1.1 = w ∨
  ∃ regex, Map (routes w) !! key = None ∧ Compile patt = inl regex.
Proof.
  unfold Add, NewRoute, updatePattern.
  destruct (Map (routes w) !! key); [by left|].
  destruct (Compile patt) as [regex|err]; [|by left]. right. eauto.
Qed.

Lemma Add_deref_other key patt addr spool instr w key' :
  valid_pointers w → key' ≠ key →
  deref (Add key patt addr spool instr w).1.1 key' = deref w key'.
Proof.
  intros Hval Hne.
  destruct (Add_cases key patt addr spool instr w) as [->|(regex & Hkey & Hc)];
    [done|].
  destruct (Add_success key patt addr spool instr w regex Hkey Hc) as [_ ->].
  unfold deref. cbn [fst routes heap Map].
  rewrite lookup_insert_ne by done.
  destruct (Map (routes w) !! key') as [l'|] eqn:Hl'; [|done]. cbn.
  destruct (Hval key' l' Hl') as [route' Hroute'].
  rewrite lookup_insert_ne; [done|].
  pose proof (fresh_heap (heap w)). congruence.
Qed.

(** X6. [Add] fails without a trace: for a key the map already has it
    returns "route with given key already exists", and for a new key whose
    pattern does not compile it returns the error of the compilation; in
    both cases the world is unchanged and no relay is started. *)
Theorem Add_fails_clean (key patt addr : string) (spool : bool) (instr : Client)
    (w : World) :
  (is_Some (Map (routes w) !! key) →
   Add key patt addr spool instr w =
     (w, [], Some "route with given key already exists")) ∧
  (∀ err, Map (routes w) !! key = None → Compile patt = inr err →
   Add key patt addr spool instr w = (w, [], Some err)).
Proof.
  unfold Add, NewRoute, updatePattern. split.
  - by intros [l ->].
  - intros err -> ->. done.
Qed.

(** X7. After [Add] of a new key with a valid pattern, the key leads to the
    struct [NewRoute] built and [Run] started, at a location that was
    unused; every other key leads where it led before. *)
Theorem Add_lookup (key patt addr : string) (spool : bool) (instr : Client)
    (w : World) (regex : Regexp) :
  valid_pointers w →
  Map (routes w) !! key = None → Compile patt = inl regex →
  let w' := (Add key patt addr spool instr w).1.1 in
  (∃ l route0,
     NewRoute key patt addr (SpoolDir (routes w)) spool instr = inl route0 ∧
     deref w' key = Some (l, running l route0) ∧ heap w !! l = None) ∧
  (∀ key', key' ≠ key → deref w' key' = deref w key').
Proof.
  intros Hval Hkey Hc w'. split.
  - destruct (Add_success key patt addr spool instr w regex Hkey Hc)
      as [Hnew Hadd].
    eexists _, _. split; [exact Hnew|]. split; [|apply fresh_heap].
    unfold w'. rewrite Hadd. unfold deref. cbn [fst routes heap Map].
    rewrite lookup_insert_eq. cbn. by rewrite lookup_insert_eq.
  - intros key' Hne. by apply Add_deref_other.
Qed.

Lemma Add_KeyList key patt addr spool instr w :
  KeyList (routes (Add key patt addr spool instr w).1.1) = KeyList (routes w) ∧
  SpoolDir (routes (Add key patt addr spool instr w).1.1) = SpoolDir (routes w).
Proof.
  destruct (Add_cases key patt addr spool instr w) as [->|(regex & Hkey & Hc)];
    [done|].
  by destruct (Add_success key patt addr spool instr w regex Hkey Hc) as [_ ->].
Qed.

Lemma Dispatch_range_ext w w' buf first_only keys routed :
  (∀ key, key ∈ keys → deref w' key = deref w key) →
  Dispatch_range w' buf first_only keys routed =
  Dispatch_range w buf first_only keys routed.
Proof.
  revert routed. induction keys as [|key keys IH]; intros routed Hkeys; [done|].
  cbn [Dispatch_range]. rewrite (Hkeys key) by apply list_elem_of_here.
  assert (∀ routed,
            Dispatch_range w' buf first_only keys routed =
            Dispatch_range w buf first_only keys routed) as IH'.
  { intros routed'. apply IH. intros key' Hin. apply Hkeys.
    by apply list_elem_of_further. }
  destruct (deref w key) as [[l route]|]; [|done].
  destruct (Reg route) as [reg|]; [|done].
  by rewrite !IH'.
Qed.

(** X8. [Add] never changes what [Dispatch] does: on a table where every
    key of the order is in the map, the sends and the result of [Dispatch]
    for any line are the same after any [Add] as before it. *)
Theorem Add_keeps_Dispatch (key patt addr : string) (spool : bool)
    (instr : Client) (w : World) (buf : bytes) (first_only : bool) :
  I1 w → valid_pointers w →
  Dispatch (Add key patt addr spool instr w).1.1 buf first_only =
  Dispatch w buf first_only.
Proof.
  intros HI Hval. unfold Dispatch.
  destruct (Add_KeyList key patt addr spool instr w) as [-> _].
  apply Dispatch_range_ext. intros key' Hin.
  destruct (Add_cases key patt addr spool instr w) as [->|(regex & Hkey & _)];
    [done|].
  apply Add_deref_other; [done|]. intros ->.
  destruct (HI key Hin) as [l Hl]. congruence.
Qed.

(** X9. [Add] and then [Del] of the same new key give the table back: both
    return no error, the map, the key list and the spool directory are as
    before, the relay [Add] started is the one [Del] shuts down, and the
    structs of the other routes are untouched. *)
Theorem Add_Del_roundtrip (key patt addr : string) (spool : bool)
    (instr : Client) (w : World) (regex : Regexp) :
  Map (routes w) !! key = None → Compile patt = inl regex →
  ∃ l w1 w2,
    Add key patt addr spool instr w = (w1, [GoRelay l], None) ∧
    Del key w1 = (w2, [SendShutdown l], Returned None) ∧
    routes w2 = routes w ∧
    heap w !! l = None ∧ ∀ l', l' ≠ l → heap w2 !! l' = heap w !! l'.
Proof.
  intros Hkey Hc.
  destruct (Add_success key patt addr spool instr w regex Hkey Hc) as [_ Hadd].
  eexists _, _, _. split; [exact Hadd|].
  unfold Del. cbn [routes heap Map KeyList SpoolDir].
  rewrite !lookup_insert_eq. cbn [Shutdown running Run fst shutdown].
  split; [reflexivity|]. cbn [routes heap].
  split; [|split; [apply fresh_heap|]].
  - rewrite delete_insert_eq, delete_id by done. apply Routes_eta.
  - intros l' Hne. by rewrite lookup_insert_ne.
Qed.

(** X10. Once [Del] was called for a key, whether it was present or not,
    a second [Del] and any [Update] of that key return "unknown route" and
    leave the world as it is. *)
Theorem Del_then_unknown (key : string) (w : World) (net : Net)
    (addr patt : option string) :
  let w1 := (Del key w).1.1 in
  Del key w1 = (w1, [], Returned (Some ("unknown route '" +:+ key +:+ "'"))) ∧
  Update net key addr patt w1 =
    (w1, [], Returned (Some ("unknown route '" +:+ key +:+ "'"))).
Proof.
  intros w1.
  assert (Map (routes w1) !! key = None) as Hgone.
  { unfold w1, Del. destruct (Map (routes w) !! key) as [l|] eqn:Hl; [|done].
    destruct (heap w !! l) as [route|]; [destruct (Shutdown l route)|];
      cbn [fst routes Map]; apply lookup_delete_eq. }
  unfold Del, Update. by rewrite Hgone.
Qed.

(** X11. On a table as the program keeps it, [Del] of a present key never
    answers "not running yet": it returns no error, signals shutdown to the
    relay of that key, takes the key out of the map and leaves the heap and
    every other key as they are. *)
Theorem Del_present_wf (key : string) (w : World) (l : loc) :
  table_wf w → Map (routes w) !! key = Some l →
  Del key w =
    (mkWorld (heap w)
       (mkRoutes (delete key (Map (routes w))) (KeyList (routes w))
          (SpoolDir (routes w))),
     [SendShutdown l], Returned None) ∧
  ∀ key', key' ≠ key → deref (Del key w).1.1 key' = deref w key'.
Proof.
  intros Hwf Hl.
  destruct (Hwf key l Hl) as (route & Hroute & _ & _ & _ & Hsh & _).
  assert (Del key w =
            (mkWorld (heap w)
               (mkRoutes (delete key (Map (routes w))) (KeyList (routes w))
                  (SpoolDir (routes w))),
             [SendShutdown l], Returned None)) as Hdel.
  { unfold Del, Shutdown. by rewrite Hl, Hroute, Hsh. }
  split; [done|]. intros key' Hne. rewrite Hdel. unfold deref.
  cbn [fst routes heap Map]. by rewrite lookup_delete_ne.
Qed.

Lemma Update_patt_only net key patt w l route :
  deref w key = Some (l, route) →
  Update net key None (Some patt) w =
    match Compile patt with
    | inr err => (w, [], Returned (Some err))
    | inl regex =>
        (mkWorld
           (<[l := mkRoute (Key route) patt (Addr route) (spoolDir route)
                     (Spool route) (instrument route) (Some regex) (ch route)
                     (shutdown route) (queue route) (raddr route)
                     (connUpdates route) (inConnUpdate route)]> (heap w))
           (routes w),
         [], Returned None)
    end.
Proof.
  intros [Hl Hroute]%deref_Some.
  unfold Update, updatePattern. rewrite Hl, Hroute.
  destruct (Compile patt) as [regex|err]; [done|].
  by rewrite insert_id, World_eta by done.
Qed.

Lemma matches_inserted w key l route reg buf :
  Map (routes w) !! key = Some l → Reg route = Some reg →
  matches (mkWorld (<[l := route]> (heap w)) (routes w)) buf key = Match reg buf.
Proof.
  intros Hl Hreg. unfold matches, deref. cbn [routes heap].
  rewrite Hl. cbn [mbind option_bind]. rewrite lookup_insert_eq.
  cbn [mbind option_bind]. by rewrite Hreg.
Qed.

(** X12. [Update] of a present key with a pattern only: when the pattern
    does not compile, the error is returned and the world is unchanged; when
    it compiles, the struct of that key gets the pattern and its regex and
    keeps its other fields, no other struct and no part of the table
    changes, nothing is sent, and from then on the key matches exactly the
    lines the new regex matches. *)
Theorem Update_pattern (net : Net) (key patt : string) (w : World) (l : loc)
    (route : Route) :
  deref w key = Some (l, route) →
  match Compile patt with
  | inr err => Update net key None (Some patt) w = (w, [], Returned (Some err))
  | inl regex =>
      Update net key None (Some patt) w =
        (mkWorld
           (<[l := mkRoute (Key route) patt (Addr route) (spoolDir route)
                     (Spool route) (instrument route) (Some regex) (ch route)
                     (shutdown route) (queue route) (raddr route)
                     (connUpdates route) (inConnUpdate route)]> (heap w))
           (routes w),
         [], Returned None) ∧
      ∀ buf, matches (Update net key None (Some patt) w).1.1 buf key =
             Match regex buf
  end.
Proof.
  intros Hd. rewrite (Update_patt_only net key patt w l route Hd).
  destruct (Compile patt) as [regex|err]; [|done].
  split; [done|]. intros buf. apply deref_Some in Hd as [Hl _].
  by apply matches_inserted.
Qed.

Lemma Dispatch_range_dangling w buf keys routed key :
  started_routes w → key ∈ keys → Map (routes w) !! key = None →
  (Dispatch_range w buf false keys routed).2 = Panicked.
Proof.
  intros Hs. revert routed.
  induction keys as [|key0 keys IH]; intros routed Hin Hkey.
  - by apply elem_of_nil in Hin.
  - cbn [Dispatch_range].
    destruct (deref w key0) as [[l route]|] eqn:Hd; [|done].
    apply deref_Some in Hd as [Hl Hroute].
    destruct (Hs key0 l Hl) as (route' & Hroute' & [reg Hreg] & Hch).
    assert (route' = route) as -> by congruence.
    assert (key ∈ keys) as Hin'.
    { apply elem_of_cons in Hin as [->|Hin]; [congruence|done]. }
    rewrite Hreg, Hch. destruct (Match reg buf).
    + specialize (IH true Hin' Hkey).
      by destruct (Dispatch_range w buf false keys true).
    + by apply IH.
Qed.

(** X13. After [Del] of a key of the dispatch order, on a table of started
    routes, every fan-out [Dispatch] panics, whatever the line: the order
    still holds the key and the map no longer has a route for it. *)
Theorem Del_then_Dispatch_panics (key : string) (w : World) (l : loc)
    (buf : bytes) :
  started_routes w → Map (routes w) !! key = Some l →
  key ∈ KeyList (routes w) →
  (Dispatch (Del key w).1.1 buf false).2 = Panicked.
Proof.
  intros Hs Hl Hin. destruct (Del_present key w l Hl) as [Hgone Hkeys].
  unfold Dispatch. apply (Dispatch_range_dangling _ _ _ _ key).
  - by apply started_routes_Del.
  - by rewrite Hkeys.
  - done.
Qed.

(** *** What every call keeps *)

Lemma updateConn_route net l route :
  ∃ ra, (updateConn net l route).1.1 =
    mkRoute (Key route) (Patt route) (Addr route) (spoolDir route)
      (Spool route) (instrument route) (Reg route) (ch route) (shutdown route)
      (queue route) ra (connUpdates route) (inConnUpdate route).
Proof.
  unfold updateConn. destruct route as [k p a d s i r c sh q ra cu icu].
  cbn [inConnUpdate Addr connUpdates].
  destruct icu; [by eexists|].
  destruct (ResolveTCPAddr net a) as [ra'|err]; [|by eexists].
  destruct (DialTCP net ra') as [nc|err]; [|by eexists].
  destruct cu; by eexists.
Qed.

Lemma Update_cases net key addr patt w :
  (Update net key addr patt w).1.1 = w ∨
  ∃ l route route',
    Map (routes w) !! key = Some l ∧ heap w !! l = Some route ∧
    (Update net key addr patt w).1.1 =
      mkWorld (<[l := route']> (heap w)) (routes w) ∧
    Key route' = Key route ∧ ch route' = ch route ∧
    shutdown route' = shutdown route ∧ inConnUpdate route' = inConnUpdate route ∧
    connUpdates route' = connUpdates route ∧ Spool route' = Spool route ∧
    queue route' = queue route ∧ (consistent route → consistent route').
Proof.
  unfold Update.
  destruct (Map (routes w) !! key) as [l|] eqn:Hl; [|by left].
  destruct (heap w !! l) as [route|] eqn:Hroute; [|by left].
  destruct addr as [addr|]; [|destruct patt as [patt|]; [|by left]].
  - right. destruct (updateConn_route net l route) as [ra Hra].
    destruct (updateConn net l route) as [[route' evs] r]. cbn [fst] in *.
    exists l, route, route'. subst route'. by repeat split.
  - right. unfold updatePattern.
    destruct (Compile patt) as [regex|err] eqn:Hc; cbn [fst];
      eexists l, route, _; repeat split; try done.
    intros _. by exists regex.
Qed.

Lemma table_wf_Add key patt addr spool instr w :
  table_wf w → table_wf (Add key patt addr spool instr w).1.1.
Proof.
  intros Hwf.
  destruct (Add_cases key patt addr spool instr w) as [->|(regex & Hkey & Hc)];
    [done|].
  destruct (Add_success key patt addr spool instr w regex Hkey Hc) as [_ ->].
  intros key' l'. cbn [fst routes heap Map].
  destruct (decide (key = key')) as [<-|Hne].
  - rewrite lookup_insert_eq. intros [= <-]. rewrite lookup_insert_eq.
    eexists. split; [done|]. cbn. split; [done|].
    split; [by exists regex|]. do 4 (split; [done|]).
    intros ->. eauto.
  - rewrite lookup_insert_ne by done. intros Hl'.
    destruct (Hwf key' l' Hl') as (route' & Hroute' & Hrest).
    exists route'. split; [|done].
    rewrite lookup_insert_ne; [done|].
    pose proof (fresh_heap (heap w)). congruence.
Qed.

Lemma table_wf_Update net key addr patt w :
  table_wf w → table_wf (Update net key addr patt w).1.1.
Proof.
  intros Hwf.
  destruct (Update_cases net key addr patt w)
    as [->|(l & route & route' & Hl & Hroute & -> & Hk & Hch & Hsh & Hicu &
            Hcu & Hsp & Hq & Hcons)]; [done|].
  intros key' l' Hl'. cbn [routes heap] in *.
  destruct (Hwf key' l' Hl') as (r & Hr & Hkey & Hc & ? & ? & ? & ? & Hqueue).
  destruct (decide (l = l')) as [<-|Hne].
  - rewrite lookup_insert_eq. exists route'.
    assert (r = route) as -> by congruence.
    split; [done|]. rewrite Hk, Hch, Hsh, Hicu, Hcu, Hsp, Hq. auto 10.
  - rewrite lookup_insert_ne by done. eauto 10.
Qed.

Lemma table_wf_Del key w : table_wf w → table_wf (Del key w).1.1.
Proof.
  intros Hwf.
  assert (table_wf
            (mkWorld (heap w)
               (mkRoutes (delete key (Map (routes w))) (KeyList (routes w))
                  (SpoolDir (routes w))))) as Hdel.
  { intros key' l'. cbn [routes heap Map]. intros Hl'.
    apply lookup_delete_Some in Hl' as [_ Hl']. eauto. }
  unfold Del. destruct (Map (routes w) !! key) as [l|]; [|done].
  destruct (heap w !! l) as [route|]; [|done].
  by destruct (Shutdown l route).
Qed.

Lemma Update_KeyList net key addr patt w :
  routes (Update net key addr patt w).1.1 = routes w.
Proof.
  destruct (Update_cases net key addr patt w)
    as [->|(l & route & route' & _ & _ & -> & _)]; done.
Qed.

Lemma Del_KeyList key w :
  KeyList (routes (Del key w).1.1) = KeyList (routes w) ∧
  SpoolDir (routes (Del key w).1.1) = SpoolDir (routes w).
Proof.
  unfold Del. destruct (Map (routes w) !! key) as [l|]; [|done].
  destruct (heap w !! l) as [route|]; [|done].
  by destruct (Shutdown l route).
Qed.

(** X14. Whatever calls reach the table, in whatever order, it stays as the
    program keeps it: every key of the map leads to a struct built under
    that key, with a regex that is the compilation of its pattern, with its
    channels made and with its queue when it spools. *)
Theorem table_wf_ops (w : World) (ops : list Op) :
  table_wf w → table_wf (apply_ops w ops).
Proof.
  unfold apply_ops. revert w. induction ops as [|op ops IH]; intros w Hwf;
    [done|].
  cbn [foldl]. apply IH. destruct op; cbn [apply_op List fst];
    auto using table_wf_Add, table_wf_Update, table_wf_Del.
Qed.

(** X15. No call ever changes the dispatch order or the spool directory:
    after any sequence of [Add], [Update], [Del], [Dispatch] and [List] the
    key list is the one the table started with. *)
Theorem ops_keep_KeyList (w : World) (ops : list Op) :
  KeyList (routes (apply_ops w ops)) = KeyList (routes w) ∧
  SpoolDir (routes (apply_ops w ops)) = SpoolDir (routes w).
Proof.
  unfold apply_ops. revert w. induction ops as [|op ops IH]; intros w; [done|].
  cbn [foldl]. destruct (IH (apply_op w op)) as [-> ->].
  destruct op as [key patt addr spool instr|net key addr patt|key| |];
    cbn [apply_op List fst]; try done.
  - apply Add_KeyList.
  - by rewrite Update_KeyList.
  - apply Del_KeyList.
Qed.

(** *** Listing *)

Lemma List_lookup w :
  valid_pointers w →
  ∃ ret, List w = (w, Returned ret) ∧
    ∀ key, ret !! key = (Copy_struct ∘ snd) <$> deref w key.
Proof.
  intros Hval.
  destruct (List_range_spec (heap w) (map_to_list (Map (routes w))) ∅)
    as (ret & Hret & Hlook).
  { apply NoDup_fst_map_to_list. }
  { intros k l Hin. apply (Hval k l). by apply elem_of_map_to_list. }
  exists ret. unfold List. rewrite Hret. split; [done|].
  intros key. rewrite Hlook, list_to_map_to_list, lookup_empty. unfold deref.
  destruct (Map (routes w) !! key) as [l|]; [|done]. simpl.
  by destruct (heap w !! l).
Qed.

Lemma table_wf_valid w : table_wf w → valid_pointers w.
Proof. intros Hwf key l Hl. destruct (Hwf key l Hl) as (route & -> & _). eauto. Qed.

(** X16. On a table as the program keeps it, [List] returns and has an
    entry exactly for the keys of the map; the copy under a key carries
    that key in its [Key] field, its regex is the compilation of its
    pattern, and it is not running: it cannot be shut down. *)
Theorem List_wf (w : World) :
  table_wf w →
  ∃ ret, List w = (w, Returned ret) ∧
    (∀ key, is_Some (ret !! key) ↔ is_Some (Map (routes w) !! key)) ∧
    ∀ key copy l, ret !! key = Some copy →
      Key copy = key ∧ consistent copy ∧
      Shutdown l copy = ([], Some "not running yet").
Proof.
  intros Hwf.
  destruct (List_lookup w (table_wf_valid w Hwf)) as (ret & Hret & Hall).
  exists ret. split; [done|]. split.
  - intros key. rewrite Hall. unfold deref.
    destruct (Map (routes w) !! key) as [l|] eqn:Hl; cbn.
    + destruct (Hwf key l Hl) as (route & -> & _). cbn. split; eauto.
    + split; by intros [? ?].
  - intros key copy l. rewrite Hall.
    destruct (deref w key) as [[l' route]|] eqn:Hd; [|done].
    apply deref_Some in Hd as [Hl' Hroute].
    destruct (Hwf key l' Hl') as (route' & Hroute' & Hkey & Hcons & _).
    assert (route' = route) as -> by congruence.
    intros [= <-]. done.
Qed.

Lemma valid_pointers_Add key patt addr spool instr w :
  valid_pointers w → valid_pointers (Add key patt addr spool instr w).1.1.
Proof.
  intros Hval.
  destruct (Add_cases key patt addr spool instr w) as [->|(regex & Hkey & Hc)];
    [done|].
  destruct (Add_success key patt addr spool instr w regex Hkey Hc) as [_ ->].
  intros key' l'. cbn [fst routes heap Map].
  destruct (decide (key = key')) as [<-|Hne].
  - rewrite lookup_insert_eq. intros [= <-]. rewrite lookup_insert_eq. eauto.
  - rewrite lookup_insert_ne by done. intros Hl'.
    apply lookup_insert_is_Some'. right. by apply (Hval key' l').
Qed.

(** X17. After [Add] of a new key with a valid pattern, [List] returns what
    it returned before with one entry more: under the new key, a copy that
    holds the key, the pattern, the address and the spool flag given to
    [Add], and the spool directory of the table. *)
Theorem Add_then_List (key patt addr : string) (spool : bool) (instr : Client)
    (w : World) (regex : Regexp) :
  valid_pointers w →
  Map (routes w) !! key = None → Compile patt = inl regex →
  ∃ ret,
    List w = (w, Returned ret) ∧
    (List (Add key patt addr spool instr w).1.1).2 =
      Returned
        (<[key := mkRoute key patt addr (SpoolDir (routes w)) spool instr
                    (Some regex) nil_chan nil_chan None None nil_chan nil_chan]>
           ret).
Proof.
  intros Hval Hkey Hc.
  destruct (List_lookup w Hval) as (ret & Hret & Hall).
  destruct (List_lookup _ (valid_pointers_Add key patt addr spool instr w Hval))
    as (ret' & Hret' & Hall').
  exists ret. split; [done|]. rewrite Hret'. cbn [snd]. f_equal.
  apply map_eq. intros key'. rewrite Hall'.
  destruct (decide (key = key')) as [<-|Hne].
  - rewrite lookup_insert_eq.
    destruct (Add_success key patt addr spool instr w regex Hkey Hc) as [_ ->].
    unfold deref. cbn [fst routes heap Map]. rewrite lookup_insert_eq. cbn.
    by rewrite lookup_insert_eq.
  - rewrite lookup_insert_ne by done.
    rewrite Add_deref_other by done. by rewrite Hall.
Qed.

(** ** The handlers *)

(** X18. The update form of the HTTP port never changes a route: whatever
    key, pattern and address it is sent, every route of the table keeps its
    pattern, its regex and its address. *)
Theorem updateHandler_keeps (net : Net) (key patt addr : string) (w : World)
    (key' : string) (l' : loc) (route : Route) :
  deref w key' = Some (l', route) →
  ∃ route', deref (updateHandler net key patt addr w).1.1 key' = Some (l', route') ∧
    Patt route' = Patt route ∧ Reg route' = Reg route ∧
    Addr route' = Addr route.
Proof.
  intros [Hl' Hroute]%deref_Some.
  assert ((updateHandler net key patt addr w).1.1 =
          (Update net key (Some addr) (Some patt) w).1.1) as ->.
  { unfold updateHandler.
    by destruct (Update net key (Some addr) (Some patt) w)
      as [[w' evs] [[err|]| |]]. }
  unfold Update.
  destruct (Map (routes w) !! key) as [l|] eqn:Hl;
    [|exists route; split; [by apply deref_Some|done]].
  destruct (heap w !! l) as [r|] eqn:Hr;
    [|exists route; split; [by apply deref_Some|done]].
  destruct (updateConn_route net l r) as [ra Hra].
  destruct (updateConn net l r) as [[r' evs] res]. cbn [fst] in *. subst r'.
  unfold deref. cbn [routes heap]. rewrite Hl'. cbn.
  destruct (decide (l = l')) as [<-|Hne].
  - rewrite lookup_insert_eq. cbn. eexists. split; [done|].
    assert (r = route) as -> by congruence. done.
  - rewrite lookup_insert_ne, Hroute by done. cbn. eauto.
Qed.

(** X19. A command of fewer than three words makes [tcpAddHandler] and
    [tcpPattHandler] panic, for they read the third word before they count
    the words; [tcpDelHandler] counts first and returns "bad number of
    arguments".  None of them touches the table. *)
Theorem tcp_short_command (statsdClient : Client) (net : Net)
    (Command : list string) (w : World) :
  (length Command < 3)%nat →
  tcpAddHandler statsdClient Command w = (w, [], [], Panicked) ∧
  tcpPattHandler net Command w = (w, [], [], Panicked) ∧
  tcpDelHandler Command w =
    (w, [], [], Returned (Some "bad number of arguments")).
Proof.
  intros Hlen. unfold tcpAddHandler, tcpPattHandler, tcpDelHandler.
  rewrite (lookup_ge_None_2 Command 2) by lia.
  by rewrite bool_decide_true by lia.
Qed.

(** X20. [tcpAddHandler] on a well-formed command for a new key: with six
    words, the fourth a pattern that compiles, and with five words, when the
    empty pattern compiles, it answers "added", starts one relay and leaves
    under the key the struct [NewRoute] builds from the words and [Run]
    starts; the pattern of the five-word form is the empty one, and the
    route spools exactly when the last word is ["1"]. *)
Theorem tcpAddHandler_adds (statsdClient : Client) (c0 c1 key patt addr s : string)
    (w : World) (regex regex0 : Regexp) :
  Map (routes w) !! key = None →
  Compile patt = inl regex → Compile "" = inl regex0 →
  let l := fresh (dom (heap w)) in
  let built patt regex :=
    running l (mkRoute key patt addr (SpoolDir (routes w))
                 (bool_decide (s = "1")) statsdClient (Some regex)
                 nil_chan nil_chan None None nil_chan nil_chan) in
  (∃ w', tcpAddHandler statsdClient [c0; c1; key; patt; addr; s] w =
           (w', [GoRelay l], ["added" +:+ nl], Returned None) ∧
         deref w' key = Some (l, built patt regex)) ∧
  (∃ w', tcpAddHandler statsdClient [c0; c1; key; addr; s] w =
           (w', [GoRelay l], ["added" +:+ nl], Returned None) ∧
         deref w' key = Some (l, built "" regex0)).
Proof.
  intros Hkey Hc Hc0 l built.
  assert (∀ w0 l0 (route0 : Route),
            deref (mkWorld (<[l0 := route0]> (heap w0))
                     (mkRoutes (<[key := l0]> (Map (routes w0)))
                        (KeyList (routes w0)) (SpoolDir (routes w0)))) key =
            Some (l0, route0)) as Hderef.
  { intros w0 l0 route0. unfold deref. cbn [routes heap Map].
    rewrite lookup_insert_eq. cbn. by rewrite lookup_insert_eq. }
  unfold tcpAddHandler. cbn [lookup list_lookup length].
  split.
  - rewrite bool_decide_false, bool_decide_true by done.
    cbn [lookup_total list_lookup_total].
    destruct (Add_success key patt addr (bool_decide (s = "1")) statsdClient w
                regex Hkey Hc) as [_ ->].
    eexists. split; [reflexivity|]. apply Hderef.
  - rewrite bool_decide_true by done. cbn [lookup_total list_lookup_total].
    destruct (Add_success key "" addr (bool_decide (s = "1")) statsdClient w
                regex0 Hkey Hc0) as [_ ->].
    eexists. split; [reflexivity|]. apply Hderef.
Qed.

(** X21. [tcpPattHandler] for a present key: with three words, when the
    empty pattern compiles, it answers "updated" and the key then matches
    what the regex of the empty pattern matches; with four words whose
    fourth is a pattern that does not compile, it returns the error of the
    compilation, writes no answer and leaves the world as it is. *)
Theorem tcpPattHandler_sets (net : Net) (c0 c1 key patt : string) (w : World)
    (l : loc) (route : Route) (regex0 : Regexp) (err : error) :
  deref w key = Some (l, route) →
  Compile "" = inl regex0 → Compile patt = inr err →
  (∃ w', tcpPattHandler net [c0; c1; key] w =
           (w', [], ["updated" +:+ nl], Returned None) ∧
         ∀ buf, matches w' buf key = Match regex0 buf) ∧
  tcpPattHandler net [c0; c1; key; patt] w = (w, [], [], Returned (Some err)).
Proof.
  intros Hd Hc0 Hc. unfold tcpPattHandler. cbn [lookup list_lookup length].
  split.
  - rewrite bool_decide_false, bool_decide_true by done.
    rewrite (Update_patt_only net key "" w l route Hd), Hc0.
    eexists. split; [reflexivity|]. intros buf.
    apply deref_Some in Hd as [Hl _]. by apply matches_inserted.
  - rewrite bool_decide_true by done. cbn [lookup_total list_lookup_total].
    by rewrite (Update_patt_only net key patt w l route Hd), Hc.
Qed.

(** X27. The save form of the HTTP port adds routes that never spool: for
    a new key and a pattern that compiles it starts one relay, leaves under
    the key the struct built from the form values with spooling off, and
    redirects to the front page; for a key the table has it answers with
    status 500 and the error of [Add], and leaves the world as it is. *)
Theorem saveHandler_adds (statsdClient : Client) (key patt addr : string)
    (w : World) :
  (∀ regex, Map (routes w) !! key = None → Compile patt = inl regex →
     let l := fresh (dom (heap w)) in
     ∃ w', saveHandler statsdClient key patt addr w =
             (w', [GoRelay l], http_Redirect "/" 302) ∧
           deref w' key =
             Some (l, running l (mkRoute key patt addr (SpoolDir (routes w))
                                   false statsdClient (Some regex) nil_chan
                                   nil_chan None None nil_chan nil_chan))) ∧
  (is_Some (Map (routes w) !! key) →
   saveHandler statsdClient key patt addr w =
     (w, [], http_Error "route with given key already exists" 500)).
Proof.
  unfold saveHandler. split.
  - intros regex Hkey Hc. cbv zeta.
    destruct (Add_success key patt addr false statsdClient w regex Hkey Hc)
      as [_ ->].
    eexists. split; [reflexivity|]. unfold deref. cbn [routes heap Map].
    rewrite lookup_insert_eq. cbn [mbind option_bind].
    by rewrite lookup_insert_eq.
  - intros [l0 Hl0]. unfold Add. by rewrite Hl0.
Qed.

(** ** The ingress *)

(** X22. [handle] forwards every line the reader gives before the first
    error or over-long line, each with a newline appended and each counted
    as in, in order; it forwards nothing from that point on. *)
Theorem handle_forwards (good : list ReadLine) (bad : ReadLine)
    (rest : list ReadLine) :
  Forall complete_line good → ¬ complete_line bad →
  handle_range good = good ≫= forwarded ∧
  handle_range (good ++ bad :: rest) = good ≫= forwarded.
Proof.
  intros Hgood Hbad.
  assert (handle_range (bad :: rest) = []) as Hstop.
  { cbn [handle_range]. destruct (rl_err bad) as [e|] eqn:He; [done|].
    destruct (rl_isPrefix bad) eqn:Hp; [done|]. by destruct Hbad. }
  induction Hgood as [|r good [He Hp] _ [IH1 IH2]]; [by split|].
  cbn [handle_range app]. rewrite He, Hp, IH1, IH2. done.
Qed.

(** X23. On a table where every key of the order has a started route,
    [Router] gets through any lines without panic: it sends each line, in
    the order the lines arrive, to the routes [Dispatch] finds for it, and
    logs as unrouteable exactly the lines no route of the order matches. *)
Theorem Router_spec (w : World) (first_only : bool) (bufs : list bytes) :
  I1 w → started_routes w →
  let receivers buf := matching w buf (KeyList (routes w)) in
  Router_range w first_only bufs =
    (bufs ≫= (λ buf, (λ l, SendCh l buf) <$>
                (if first_only then take 1 (receivers buf) else receivers buf)),
     filter (λ buf, receivers buf = []) bufs,
     Returned ()).
Proof.
  intros HI Hs receivers. induction bufs as [|buf bufs IH]; [done|].
  cbn [Router_range]. unfold Dispatch. rewrite Dispatch_range_spec by done.
  rewrite IH. fold (receivers buf). cbn [mbind list_bind]. f_equal. f_equal.
  rewrite filter_cons. cbn [orb].
  destruct (decide (receivers buf = [])) as [Hnone|Hsome].
  - by rewrite bool_decide_false by (by intros ?).
  - by rewrite bool_decide_true by done.
Qed.

(** ** Building the table *)

Lemma substring_all s : String.substring 0 (String.length s) s = s.
Proof. induction s as [|c s IH]; [done|]. cbn. by rewrite IH. Qed.

Lemma routes_append name :
  "routes." +:+ name =
  String "r"%char (String "o"%char (String "u"%char (String "t"%char
    (String "e"%char (String "s"%char (String "."%char name)))))).
Proof. reflexivity. Qed.

Lemma main_KeyList_route name keys KeyList0 :
  no_dot name →
  main_KeyList (("routes." +:+ name) :: keys) KeyList0 =
  main_KeyList keys (KeyList0 ++ [name]).
Proof.
  unfold no_dot. intros Hname. cbn [main_KeyList]. rewrite routes_append.
  match goal with
  | |- context [bool_decide (Count_dot ?str = 1)] =>
      assert (Count_dot str = 1) as -> by (cbn; lia);
      assert (String.prefix "routes." str = true) as ->
        by (cbn; by destruct name);
      assert (String.substring 7 (String.length str - 7) str = name) as ->
        by (cbn; rewrite Nat.sub_0_r; apply substring_all)
  end.
  done.
Qed.

Lemma prefix_append p str :
  String.prefix p str = true → ∃ rest, str = p +:+ rest.
Proof.
  revert str. induction p as [|a p IH]; intros str; [by exists str|].
  destruct str as [|b str]; [done|]. cbn [String.prefix].
  destruct (Ascii.ascii_dec a b) as [->|]; [|done].
  intros [rest ->]%IH. by exists rest.
Qed.

Lemma reads_off_total keys : ∃ names, reads_off keys names.
Proof.
  induction keys as [|str keys [names IH]]; [exists []; constructor|].
  destruct (decide (Count_dot str = 1)) as [Hdots|Hdots];
    [|exists names; apply reads_skip; auto].
  destruct (String.prefix "routes." str) eqn:Hprefix;
    [|exists names; apply reads_skip; auto].
  apply prefix_append in Hprefix as [name ->].
  exists (name :: names). apply reads_route; [|done].
  unfold no_dot. rewrite routes_append in Hdots. cbn in Hdots. lia.
Qed.

(** X24. [main] reads the dispatch order off the keys of the configuration
    file, whatever their order: every key is either [routes.<name>] with no
    dot in the name, and appends that name, or has no dot, more than one
    dot or another beginning, and appends nothing; so the list [main] ends
    with is the list it began with followed by those names in file order.
    A route whose name has a dot, like the settings [routes.<name>.patt] of
    a route, is left out of the order. *)
Theorem main_KeyList_names (keys : list string) (KeyList0 : list string) :
  (∃ names, reads_off keys names) ∧
  ∀ names, reads_off keys names →
    main_KeyList keys KeyList0 = (KeyList0 ++ names)%list.
Proof.
  split; [apply reads_off_total|].
  intros names Hreads. revert KeyList0.
  induction Hreads as [|name keys names Hname _ IH|str keys names Hskip _ IH];
    intros KeyList0.
  - by rewrite app_nil_r.
  - rewrite main_KeyList_route, IH by done. by rewrite <- app_assoc.
  - cbn [main_KeyList]. destruct Hskip as [Hdots|Hprefix].
    + by rewrite bool_decide_false, IH by done.
    + by rewrite Hprefix, andb_false_r, IH.
Qed.

Lemma NewRoute_inr key patt addr dir spool instr err :
  NewRoute key patt addr dir spool instr = inr err ↔ Compile patt = inr err.
Proof.
  unfold NewRoute, updatePattern.
  destruct (Compile patt) as [regex|err']; split; congruence.
Qed.

Lemma NewRoutes_range_inr entries dir instr h m :
  (∃ err, NewRoutes_range entries dir instr h m = inr err) ↔
  ∃ k routeDef err, (k, routeDef) ∈ entries ∧ Compile (Patt routeDef) = inr err.
Proof.
  revert h m. induction entries as [|[k routeDef] entries IH]; intros h m.
  - split; [by intros [? ?]|]. by intros (? & ? & ? & ?%elem_of_nil & _).
  - cbn [NewRoutes_range].
    destruct (NewRoute k (Patt routeDef) (Addr routeDef) dir (Spool routeDef) instr)
      as [route|err] eqn:Hnew.
    + rewrite IH. split.
      * intros (k' & d & err & Hin & Hc). exists k', d, err.
        split; [by apply list_elem_of_further|done].
      * intros (k' & d & err & Hin & Hc). exists k', d, err. split; [|done].
        apply elem_of_cons in Hin as [[= -> ->]|Hin]; [|done].
        apply NewRoute_inr with (key := k) (addr := Addr routeDef) (dir := dir)
          (spool := Spool routeDef) (instr := instr) in Hc. congruence.
    + split; [|eauto]. intros _. exists k, routeDef, err.
      split; [apply list_elem_of_here|by apply NewRoute_inr in Hnew].
Qed.

(** X25. [NewRoutes] fails exactly when some route of the configuration has
    a pattern that does not compile; one bad pattern refuses the whole
    table. *)
Theorem NewRoutes_error_iff (routeDefsMap : gmap string Route) (dir : string)
    (instr : Client) :
  (∃ err, NewRoutes routeDefsMap dir instr = inr err) ↔
  ∃ k routeDef err,
    routeDefsMap !! k = Some routeDef ∧ Compile (Patt routeDef) = inr err.
Proof.
  unfold NewRoutes.
  pose proof (NewRoutes_range_inr (map_to_list routeDefsMap) dir instr ∅ ∅)
    as Hiff.
  destruct (NewRoutes_range (map_to_list routeDefsMap) dir instr ∅ ∅)
    as [[h m]|err].
  - split; [by intros [? ?]|]. intros (k & d & err & Hk & Hc).
    destruct (proj2 Hiff) as [? ?]; [|done].
    exists k, d, err. by rewrite elem_of_map_to_list.
  - split; [|eauto]. intros _.
    destruct (proj1 Hiff) as (k & d & err' & Hin & Hc); [eauto|].
    exists k, d, err'. by rewrite <- elem_of_map_to_list.
Qed.

Lemma NewRoutes_range_built entries dir instr h m h' m' :
  built h m →
  NewRoutes_range entries dir instr h m = inl (h', m') →
  built h' m' ∧
  ∀ k, is_Some (m' !! k) ↔ is_Some (m !! k) ∨ k ∈ entries.*1.
Proof.
  revert h m. induction entries as [|[k routeDef] entries IH]; intros h m Hb.
  - intros [= <- <-]. split; [done|]. intros k. split; [auto|].
    intros [?|?%elem_of_nil]; done.
  - cbn [NewRoutes_range].
    destruct (NewRoute k (Patt routeDef) (Addr routeDef) dir (Spool routeDef) instr)
      as [route|err] eqn:Hnew; [|done].
    apply NewRoute_inl in Hnew as (regex & Hc & ->).
    intros Hrange. apply IH in Hrange as [Hb' Hdom].
    + split; [done|]. intros k'. rewrite Hdom, lookup_insert_is_Some.
      rewrite fmap_cons, elem_of_cons. cbn [fst].
      destruct (decide (k = k')) as [->|Hne]; [|intuition congruence].
      split; intros _; [right|left]; by left.
    + intros k' l'. destruct (decide (k = k')) as [<-|Hne].
      * rewrite lookup_insert_eq. intros [= <-]. rewrite lookup_insert_eq.
        eexists. split; [done|]. split; [done|]. by exists regex.
      * rewrite lookup_insert_ne by done. intros Hl'.
        destruct (Hb k' l' Hl') as (route' & Hroute' & ?).
        rewrite lookup_insert_ne; [eauto|].
        pose proof (fresh_heap h). congruence.
Qed.

Lemma running_idem l route : running l (running l route) = running l route.
Proof. unfold running, Run. cbn. by destruct (Spool route). Qed.

Lemma Routes_Run_range_spec entries h :
  (∀ k l, (k, l) ∈ entries → is_Some (h !! l)) →
  ∃ h' evs,
    Routes_Run_range entries h = (h', evs, Returned None) ∧
    (∀ l, l ∈ entries.*2 → h' !! l = running l <$> h !! l) ∧
    (∀ l, l ∉ entries.*2 → h' !! l = h !! l).
Proof.
  revert h. induction entries as [|[k l0] entries IH]; intros h Hval.
  - exists h, []. split; [done|]. split; [by intros l ?%elem_of_nil|done].
  - destruct (Hval k l0) as [route Hroute]; [apply list_elem_of_here|].
    destruct (IH (<[l0 := running l0 route]> h)) as (h' & evs & Hrun & Hin & Hout).
    { intros k' l' Hin. apply lookup_insert_is_Some'. right.
      apply (Hval k' l'). by apply list_elem_of_further. }
    exists h', (GoRelay l0 :: evs). cbn [Routes_Run_range]. rewrite Hroute.
    cbn [Run]. fold (running l0 route).
    change (mkRoute (Key route) (Patt route) (Addr route) (spoolDir route)
              (Spool route) (instrument route) (Reg route) made_chan made_chan
              (if Spool route
               then Some {| dq_name := "spool_" +:+ Key route;
                            dq_dataPath := spoolDir route;
                            dq_maxBytesPerFile := 200 * 1024 * 1024;
                            dq_syncEvery := 1000;
                            dq_syncTimeout := 2 * Second |}
               else queue route)
              (raddr route) made_chan made_chan) with (running l0 route).
    rewrite Hrun. split; [done|]. rewrite fmap_cons. cbn [snd]. split.
    + intros l Hl. destruct (decide (l = l0)) as [->|Hne].
      * destruct (decide (l0 ∈ entries.*2)) as [Hyes|Hno].
        -- rewrite (Hin l0 Hyes), lookup_insert_eq, Hroute.
           cbn [fmap option_fmap option_map]. by rewrite running_idem.
        -- by rewrite (Hout l0 Hno), lookup_insert_eq, Hroute.
      * apply elem_of_cons in Hl as [?|Hl]; [done|].
        by rewrite (Hin l Hl), lookup_insert_ne.
    + intros l Hl. apply not_elem_of_cons in Hl as [Hne Hl].
      by rewrite (Hout l Hl), lookup_insert_ne.
Qed.

(** X26. When [main] gets a table at all, it gets one as the program keeps
    it: [routes.Run()] returns no error, every route of the configuration
    and no other is in the map under its key, built by [NewRoute] and
    started by [Run], the dispatch order is what the keys of the file give
    and the spool directory is the configured one. *)
Theorem main_routes_wf (routeDefsMap : gmap string Route) (keys : list string)
    (dir : string) (instr : Client) (w : World) (evs : list Event)
    (r : outcome (option error)) :
  main_routes routeDefsMap keys dir instr = inl (w, evs, r) →
  r = Returned None ∧ table_wf w ∧
  (∀ k, is_Some (Map (routes w) !! k) ↔ is_Some (routeDefsMap !! k)) ∧
  KeyList (routes w) = main_KeyList keys [] ∧ SpoolDir (routes w) = dir.
Proof.
  unfold main_routes, NewRoutes.
  destruct (NewRoutes_range (map_to_list routeDefsMap) dir instr ∅ ∅)
    as [[h m]|err] eqn:Hnew; [|done].
  apply NewRoutes_range_built in Hnew as [Hb Hdom]; [|by intros k l ?].
  unfold Routes_Run. cbn [heap routes Map KeyList SpoolDir].
  destruct (Routes_Run_range_spec (map_to_list m) h) as (h' & evs' & Hrun & Hin & _).
  { intros k l Hkl%elem_of_map_to_list.
    destruct (Hb k l Hkl) as (route & -> & _). eauto. }
  rewrite Hrun. intros [= <- <- <-]. cbn [heap routes Map KeyList SpoolDir].
  split; [done|]. split; [|split; [|done]].
  - intros k l Hkl. cbn [heap routes Map] in *.
    destruct (Hb k l Hkl) as (route & Hroute & Hkey & regex & Hc & Hreg).
    exists (running l route). split.
    { rewrite Hin, Hroute; [done|].
      apply list_elem_of_fmap. exists (k, l).
      split; [done|by apply elem_of_map_to_list]. }
    split; [done|]. split; [by exists regex|]. do 4 (split; [done|]).
    apply running_queue.
  - intros k. rewrite Hdom, lookup_empty.
    split.
    + intros [[? [=]]|Hk]. apply list_elem_of_fmap in Hk as [[k' d] [-> Hk]].
      apply elem_of_map_to_list in Hk. eauto.
    + intros [d Hd]. right. apply list_elem_of_fmap. exists (k, d).
      split; [done|by apply elem_of_map_to_list].
Qed.

End Further.

(** * The table at work: one configured route *)

Import Literal.

Lemma one_route_Map : Map (routes one_route) = {[ "r1" := 1%positive ]}.
Proof. by vm_compute. Qed.

Lemma one_route_heap : heap one_route = {[ 1%positive := started_r1 false ]}.
Proof. by vm_compute. Qed.

Lemma one_route_KeyList : KeyList (routes one_route) = ["r1"].
Proof. by vm_compute. Qed.

Lemma one_route_I1 : I1 one_route.
Proof.
  intros key. rewrite one_route_KeyList, one_route_Map.
  intros Hkey%list_elem_of_singleton. subst key. by rewrite lookup_singleton_eq.
Qed.

Lemma one_route_started : started_routes one_route.
Proof.
  intros key l. rewrite one_route_Map, one_route_heap.
  intros [<- <-]%lookup_singleton_Some. rewrite lookup_singleton_eq.
  eexists. split; [done|]. split; [|done]. by eexists.
Qed.

(** C1. [Add] of the new key [r2] with the empty pattern returns no error
    and puts a started route that matches [hello] in the map, but the
    dispatch order is still [r1] alone, and a later [Dispatch] of [hello]
    sends it to [r1] only: the new route gets nothing. *)
Theorem Add_not_dispatched :
  let '(w, evs, err) := Add "r2" "" "9.9.9.9:2003" false 1%positive one_route in
  err = None ∧ evs = [GoRelay 2%positive] ∧
  Map (routes w) !! "r2" = Some 2%positive ∧
  matches w (line "hello") "r2" = true ∧
  KeyList (routes w) = ["r1"] ∧
  Dispatch w (line "hello") false =
    ([SendCh 1%positive (line "hello")], Returned true) ∧
  Dispatch w (line "hello") true =
    ([SendCh 1%positive (line "hello")], Returned true).
Proof. by vm_compute. Qed.

(** C2. [Del] of the present key [r1] returns no error and takes [r1] out of
    the map, but the dispatch order still holds it: I1 held before and is
    broken after, and the next [Dispatch] looks [r1] up in the map, gets
    [nil] and panics. *)
Theorem Del_breaks_I1 :
  I1 one_route ∧
  (Del "r1" one_route).2 = Returned None ∧
  (Del "r1" one_route).1.2 = [SendShutdown 1%positive] ∧
  Map (routes (Del "r1" one_route).1.1) !! "r1" = None ∧
  KeyList (routes (Del "r1" one_route).1.1) = ["r1"] ∧
  ¬ I1 (Del "r1" one_route).1.1 ∧
  Dispatch (Del "r1" one_route).1.1 (line "hello") false = ([], Panicked).
Proof.
  assert (Map (routes (Del "r1" one_route).1.1) !! "r1" = None) as Hmap
    by by vm_compute.
  assert (KeyList (routes (Del "r1" one_route).1.1) = ["r1"]) as Hkeys
    by by vm_compute.
  split; [apply one_route_I1|]. split; [by vm_compute|].
  split; [by vm_compute|]. split; [done|]. split; [done|].
  split; [|by vm_compute].
  intros HI. destruct (HI "r1") as [l Hl].
  - rewrite Hkeys. apply list_elem_of_here.
  - congruence.
Qed.

(** C3. [Update] of [r1] with both an address and the pattern [foo] runs
    the reconnect and returns its result; the pattern is not applied: the
    route keeps the empty pattern and its regex, and still matches a line
    that [foo] does not match. *)
Theorem Update_addr_drops_pattern :
  let '(w, evs, r) :=
    Update net_up "r1" (Some "5.6.7.8:2003") (Some "foo") one_route in
  r = Returned None ∧
  evs = [SendInConnUpdate 1%positive true; SendConnUpdates 1%positive 1%positive;
         SendInConnUpdate 1%positive false] ∧
  (Patt <$> heap w !! 1%positive) = Some "" ∧
  (Reg <$> heap w !! 1%positive) = Some (Some []) ∧
  (Addr <$> heap w !! 1%positive) = Some "1.2.3.4:2003" ∧
  Compile "foo" = inl (String.list_byte_of_string "foo") ∧
  Match (String.list_byte_of_string "foo") (line "bar") = false ∧
  matches w (line "bar") "r1" = true.
Proof. by vm_compute. Qed.

(** * The theorems at work on the configured route *)

Lemma two_routes_Map :
  Map (routes two_routes) = <["prod" := 2%positive]> {[ "all" := 1%positive ]}.
Proof. by vm_compute. Qed.

Lemma two_routes_KeyList : KeyList (routes two_routes) = ["prod"; "all"].
Proof. by vm_compute. Qed.

Lemma two_routes_I1 : I1 two_routes.
Proof.
  intros key. rewrite two_routes_KeyList, two_routes_Map.
  intros [->|[->|[]%elem_of_nil]%elem_of_cons]%elem_of_cons.
  - rewrite lookup_insert_eq. eauto.
  - rewrite lookup_insert_ne, lookup_singleton_eq by done. eauto.
Qed.

Lemma two_routes_started : started_routes two_routes.
Proof.
  intros key l. rewrite two_routes_Map.
  intros [[_ <-]|[_ [_ <-]%lookup_singleton_Some]]%lookup_insert_Some.
  - destruct (heap two_routes !! 2%positive) as [route|] eqn:Hroute;
      vm_compute in Hroute; [|done].
    exists route. injection Hroute as <-. split; [done|]. split; [by eexists|done].
  - destruct (heap two_routes !! 1%positive) as [route|] eqn:Hroute;
      vm_compute in Hroute; [|done].
    exists route. injection Hroute as <-. split; [done|]. split; [by eexists|done].
Qed.

(** [Dispatch_spec] at work on the table of [prod] and [all]: a [prod] line
    goes to both routes, in order, or to [prod] alone when only the first
    match counts; another line goes to [all]. *)
Lemma Dispatch_spec_witness :
  I1 two_routes ∧ started_routes two_routes ∧
  Dispatch two_routes (line "app.prod.count 1 0") false =
    ([SendCh 2%positive (line "app.prod.count 1 0");
      SendCh 1%positive (line "app.prod.count 1 0")], Returned true) ∧
  Dispatch two_routes (line "app.prod.count 1 0") true =
    ([SendCh 2%positive (line "app.prod.count 1 0")], Returned true) ∧
  Dispatch two_routes (line "app.dev.count 1 0") true =
    ([SendCh 1%positive (line "app.dev.count 1 0")], Returned true).
Proof.
  split; [apply two_routes_I1|]. split; [apply two_routes_started|].
  destruct (Dispatch_spec two_routes (line "app.prod.count 1 0")
              two_routes_I1 two_routes_started) as (Hall & Hfirst & _).
  destruct (Dispatch_spec two_routes (line "app.dev.count 1 0")
              two_routes_I1 two_routes_started) as (_ & Hdev & _).
  split; [rewrite Hall|split; [rewrite Hfirst|rewrite Hdev]];
    vm_compute; reflexivity.
Defined.

(** A table that satisfies I1 where [Dispatch] leaves a matching route
    out: on the table [Add] put [r2] in, every key of the order has a
    started route, the regex of [r2] matches the line [bar] and no other
    route's does, yet in both modes [Dispatch] sends the line to no route
    and returns false. *)
Lemma Dispatch_misses_added_route :
  I1 r2_added ∧ started_routes r2_added ∧
  (∃ l route reg,
     deref r2_added "r2" = Some (l, route) ∧ Reg route = Some reg ∧
     Match reg (line "bar") = true ∧
     (SendCh l (line "bar") ∉ (Dispatch r2_added (line "bar") false).1) ∧
     (SendCh l (line "bar") ∉ (Dispatch r2_added (line "bar") true).1)) ∧
  Dispatch r2_added (line "bar") false = ([], Returned false) ∧
  Dispatch r2_added (line "bar") true = ([], Returned false).
Proof.
  assert (Dispatch r2_added (line "bar") false = ([], Returned false)) as Hall
    by (by vm_compute).
  assert (Dispatch r2_added (line "bar") true = ([], Returned false)) as Hfirst
    by (by vm_compute).
  split; [apply I1_Add, I1_Update, one_route_I1|].
  split; [apply started_routes_Add, started_routes_Update, one_route_started|].
  split; [|done].
  destruct (deref r2_added "r2") as [[l route]|] eqn:Hd;
    vm_compute in Hd; [|done].
  injection Hd as <- <-. eexists _, _, _. split; [reflexivity|].
  split; [reflexivity|]. split; [by vm_compute|].
  rewrite Hall, Hfirst. split; apply not_elem_of_nil.
Qed.

(** [process_packet_spec] at work: the route [r1], spooling and not, with
    no connection; then connected, with a write that takes 3 of the 6 bytes
    and one that takes them all. *)
Lemma process_packet_spec_witness :
  process_packet (started_r1 true) {| wr_n := 0; wr_err := None |} None
    (line "hello") =
    ([Increment "route=r1.target_type=count.unit=Metric.direction=spool";
      QueuePut (line "hello")],
     Returned None) ∧
  process_packet (started_r1 false) {| wr_n := 0; wr_err := None |} None
    (line "hello") =
    ([Increment "route=r1.target_type=count.unit=Metric.direction=drop"],
     Returned None) ∧
  write_failure {| wr_n := 3; wr_err := None |} (line "hello") ∧
  process_packet (started_r1 true) {| wr_n := 3; wr_err := None |}
    (Some 1%positive) (line "hello") =
    ([Increment "route=r1.target_type=count.unit=Metric.direction=out";
      ConnWrite 1%positive (line "hello");
      Increment "route=r1.target_type=count.unit=Err";
      ConnClose 1%positive;
      QueuePut (line "hello")],
     Returned None) ∧
  write_complete {| wr_n := 6; wr_err := None |} (line "hello") ∧
  process_packet (started_r1 false) {| wr_n := 6; wr_err := None |}
    (Some 1%positive) (line "hello") =
    ([Increment "route=r1.target_type=count.unit=Metric.direction=out";
      ConnWrite 1%positive (line "hello")],
     Returned (Some 1%positive)).
Proof.
  assert (write_failure {| wr_n := 3; wr_err := None |} (line "hello")) as Hfail
    by (right; vm_compute; reflexivity).
  assert (write_complete {| wr_n := 6; wr_err := None |} (line "hello"))
    as Hcomplete by (split; reflexivity).
  destruct (process_packet_spec 1%positive (new_r1 true)
              {| wr_n := 0; wr_err := None |} 1%positive (line "hello"))
    as (Hspool & _ & _).
  destruct (process_packet_spec 1%positive (new_r1 false)
              {| wr_n := 0; wr_err := None |} 1%positive (line "hello"))
    as (Hdrop & _ & _).
  destruct (process_packet_spec 1%positive (new_r1 true)
              {| wr_n := 3; wr_err := None |} 1%positive (line "hello"))
    as (_ & Hshort & _).
  destruct (process_packet_spec 1%positive (new_r1 false)
              {| wr_n := 6; wr_err := None |} 1%positive (line "hello"))
    as (_ & _ & Hall).
  split; [exact Hspool|]. split; [exact Hdrop|].
  split; [exact Hfail|]. split; [exact (Hshort Hfail)|].
  split; [exact Hcomplete|exact (Hall Hcomplete)].
Defined.

(** [updatePattern_atomic] at work: the pattern ["("] does not compile, and the started route
    keeps its consistent pair. *)
Lemma updatePattern_atomic_witness :
  consistent (started_r1 false) ∧
  updatePattern (started_r1 false) "(" =
    (started_r1 false, Some "error parsing regexp: (") ∧
  consistent (updatePattern (started_r1 false) "(").1.
Proof.
  assert (consistent (started_r1 false)) as Hcons
    by (exists []; split; vm_compute; reflexivity).
  destruct (updatePattern_atomic (started_r1 false) "(") as [Hfail Hkeep].
  split; [exact Hcons|]. split; [exact Hfail|exact (Hkeep Hcons)].
Defined.

(** [tick_starts_attempt] at work: a tick with no connection and no attempt pending starts one
    attempt. *)
Lemma tick_starts_attempt_witness :
  (relay_iter (started_r1 false) (mkRelay None 0) FromTicker).1 = [GoUpdateConn] ∧
  (relay_iter (started_r1 false) (mkRelay None 1) FromTicker).1 = [] ∧
  (relay_iter (started_r1 false) (mkRelay (Some 1%positive) 0) FromTicker).1 = [].
Proof.
  split; [|split].
  - exact (proj1 (proj2 (proj2 (tick_starts_attempt (started_r1 false)
                                  (mkRelay None 0))))).
  - exact (proj1 (proj2 (proj2 (tick_starts_attempt (started_r1 false)
                                  (mkRelay None 1))))).
  - exact (proj1 (proj2 (proj2 (tick_starts_attempt (started_r1 false)
                                  (mkRelay (Some 1%positive) 0))))).
Defined.

Lemma begun_reachable : reachable 1%positive (new_r1 false) begun.
Proof.
  eapply reach_step; [apply (reach_start _ _ net_up)|].
  apply (step_attempt 1%positive _ (mkRelay None 0) 0%nat
           (SendInConnUpdate 1%positive true)
           [SendConnUpdates 1%positive 1%positive; SendInConnUpdate 1%positive false]
           (FromInConnUpdate true) (mkRelay None 1)); reflexivity.
Defined.

(** [conn_updates_nonneg] at work: after the Begin of the first attempt the counter is 1. *)
Lemma conn_updates_nonneg_witness :
  reachable 1%positive (new_r1 false) begun ∧
  pending (attempts begun) < 2 ^ 63 ∧
  conn_updates (mkRelay None 1) = pending (attempts begun) ∧
  0 ≤ conn_updates (mkRelay None 1).
Proof.
  assert (pending (attempts begun) < 2 ^ 63) as Hlen by reflexivity.
  split; [exact begun_reachable|]. split; [exact Hlen|].
  exact (conn_updates_nonneg 1%positive (new_r1 false)
           begun (mkRelay None 1) begun_reachable eq_refl Hlen).
Defined.

Lemma one_route_valid : valid_pointers one_route.
Proof. apply started_routes_valid, one_route_started. Qed.

(** [List_spec] at work: the list of the one-route table holds the copy of [r1]. *)
Lemma List_spec_witness :
  valid_pointers one_route ∧
  ∃ ret, List one_route = (one_route, Returned ret) ∧
    ret !! "r1" = Some (Copy_struct (started_r1 false)) ∧ ret !! "r2" = None.
Proof.
  split; [exact one_route_valid|].
  destruct (List_spec one_route one_route_valid) as (ret & Hret & Hall & _).
  exists ret. split; [exact Hret|].
  rewrite !Hall. split; vm_compute; reflexivity.
Defined.

(** [Update_nil_nil] at work: [Update] of [r1] with nothing to update. *)
Lemma Update_nil_nil_witness :
  valid_pointers one_route ∧ is_Some (Map (routes one_route) !! "r1") ∧
  Update net_up "r1" None None one_route = (one_route, [], Returned None).
Proof.
  assert (is_Some (Map (routes one_route) !! "r1")) as Hkey
    by (exists 1%positive; vm_compute; reflexivity).
  split; [exact one_route_valid|]. split; [exact Hkey|].
  exact (Update_nil_nil net_up "r1" one_route one_route_valid Hkey).
Defined.

(** * The further properties at work *)

Lemma one_route_wf : table_wf one_route.
Proof.
  intros key l. rewrite one_route_Map, one_route_heap.
  intros [<- <-]%lookup_singleton_Some. rewrite lookup_singleton_eq.
  eexists. split; [done|]. split; [done|]. split; [by exists []|].
  by repeat split.
Qed.

Lemma one_route_deref : deref one_route "r1" = Some (1%positive, started_r1 false).
Proof. by vm_compute. Qed.

Lemma one_route_no_r2 : Map (routes one_route) !! "r2" = None.
Proof. by vm_compute. Qed.

(** [Shutdown_needs_Run] at work on the route [r1]. *)
Lemma Shutdown_needs_Run_witness :
  NewRoute "r1" "" "1.2.3.4:2003" "/var/spool" false 1%positive =
    inl (new_r1 false) ∧
  Shutdown 1%positive (new_r1 false) = ([], Some "not running yet") ∧
  Shutdown 1%positive (running 1%positive (new_r1 false)) =
    ([SendShutdown 1%positive], None) ∧
  Shutdown 1%positive (Copy_struct (running 1%positive (new_r1 false))) =
    ([], Some "not running yet").
Proof.
  assert (NewRoute "r1" "" "1.2.3.4:2003" "/var/spool" false 1%positive =
            inl (new_r1 false)) as Hnew by reflexivity.
  split; [exact Hnew|].
  exact (Shutdown_needs_Run "r1" "" "1.2.3.4:2003" "/var/spool" false 1%positive
           (new_r1 false) 1%positive Hnew).
Defined.

(** [updateConn_bracket] at work: the network is up, the connection goes
    between Begin and End. *)
Lemma updateConn_bracket_witness :
  inConnUpdate (started_r1 false) = made_chan ∧
  connUpdates (started_r1 false) = made_chan ∧
  ∃ route',
    updateConn net_up 1%positive (started_r1 false) =
      (route',
       [SendInConnUpdate 1%positive true; SendConnUpdates 1%positive 1%positive;
        SendInConnUpdate 1%positive false],
       Returned None).
Proof.
  split; [reflexivity|]. split; [reflexivity|].
  destruct (updateConn_bracket net_up 1%positive (started_r1 false) eq_refl eq_refl)
    as (route' & mid & r & Heq & _ & _ & -> & ->).
  exists route'. exact Heq.
Defined.

(** [relay_iter_conn] at work: a live line met without a connection leaves
    the relay without one. *)
Lemma relay_iter_conn_witness :
  relay_iter (started_r1 false) (mkRelay None 0)
    (FromCh (line "hello") {| wr_n := 0; wr_err := None |}) =
    ([Increment "route=r1.target_type=count.unit=Metric.direction=drop"],
     Returned (Some (mkRelay None 0))) ∧
  (conn (mkRelay None 0) = conn (mkRelay None 0) ∨ conn (mkRelay None 0) = None).
Proof.
  assert (relay_iter (started_r1 false) (mkRelay None 0)
            (FromCh (line "hello") {| wr_n := 0; wr_err := None |}) =
          ([Increment "route=r1.target_type=count.unit=Metric.direction=drop"],
           Returned (Some (mkRelay None 0)))) as Hiter by reflexivity.
  split; [exact Hiter|].
  apply (relay_iter_conn _ _ _ _ _ Hiter). intros c. discriminate.
Defined.

Lemma rested_reachable : reachable 1%positive (new_r1 false) rested.
Proof.
  eapply reach_step.
  - eapply reach_step; [apply (reach_start _ _ net_down)|].
    apply (step_attempt 1%positive _ (mkRelay None 0) 0%nat
             (SendInConnUpdate 1%positive true) [SendInConnUpdate 1%positive false]
             (FromInConnUpdate true) (mkRelay None 1)); reflexivity.
  - apply (step_attempt 1%positive _ (mkRelay None 1) 0%nat
             (SendInConnUpdate 1%positive false) []
             (FromInConnUpdate false) (mkRelay None 0)); reflexivity.
Defined.

(** [conn_updates_zero_at_rest] at work: the first attempt failed and is
    over. *)
Lemma conn_updates_zero_at_rest_witness :
  reachable 1%positive (new_r1 false) rested ∧
  Forall (λ todo : list Event, todo = []) (attempts rested) ∧
  conn_updates (mkRelay None 0) = 0.
Proof.
  assert (Forall (λ todo : list Event, todo = []) (attempts rested)) as Hdone
    by (by repeat constructor).
  split; [exact rested_reachable|]. split; [exact Hdone|].
  exact (conn_updates_zero_at_rest 1%positive (new_r1 false) rested
           (mkRelay None 0) rested_reachable eq_refl Hdone).
Defined.

(** [Add_fails_clean] at work: [r1] is taken, and ["("] is no pattern. *)
Lemma Add_fails_clean_witness :
  is_Some (Map (routes one_route) !! "r1") ∧
  Add "r1" "" "9.9.9.9:2003" false 1%positive one_route =
    (one_route, [], Some "route with given key already exists") ∧
  Compile "(" = inr "error parsing regexp: (" ∧
  Add "r2" "(" "9.9.9.9:2003" false 1%positive one_route =
    (one_route, [], Some "error parsing regexp: (").
Proof.
  assert (is_Some (Map (routes one_route) !! "r1")) as Hr1
    by (exists 1%positive; by vm_compute).
  destruct (Add_fails_clean "r1" "" "9.9.9.9:2003" false 1%positive one_route)
    as [Hdup _].
  destruct (Add_fails_clean "r2" "(" "9.9.9.9:2003" false 1%positive one_route)
    as [_ Hbad].
  split; [exact Hr1|]. split; [exact (Hdup Hr1)|]. split; [reflexivity|].
  exact (Hbad _ one_route_no_r2 eq_refl).
Defined.

(** [Add_lookup] at work: [r2] is added and [r1] is where it was. *)
Lemma Add_lookup_witness :
  valid_pointers one_route ∧ Map (routes one_route) !! "r2" = None ∧
  Compile "" = inl [] ∧
  deref (Add "r2" "" "9.9.9.9:2003" false 1%positive one_route).1.1 "r1" =
    deref one_route "r1".
Proof.
  split; [exact one_route_valid|]. split; [exact one_route_no_r2|].
  split; [reflexivity|].
  destruct (Add_lookup "r2" "" "9.9.9.9:2003" false 1%positive one_route []
              one_route_valid one_route_no_r2 eq_refl) as [_ Hother].
  apply Hother. discriminate.
Defined.

(** [Add_keeps_Dispatch] at work. *)
Lemma Add_keeps_Dispatch_witness :
  I1 one_route ∧ valid_pointers one_route ∧
  Dispatch (Add "r2" "" "9.9.9.9:2003" false 1%positive one_route).1.1
    (line "hello") false =
  Dispatch one_route (line "hello") false.
Proof.
  split; [exact one_route_I1|]. split; [exact one_route_valid|].
  exact (Add_keeps_Dispatch "r2" "" "9.9.9.9:2003" false 1%positive one_route
           (line "hello") false one_route_I1 one_route_valid).
Defined.

(** [Add_Del_roundtrip] at work. *)
Lemma Add_Del_roundtrip_witness :
  Map (routes one_route) !! "r2" = None ∧ Compile "" = inl [] ∧
  ∃ l w1 w2,
    Add "r2" "" "9.9.9.9:2003" false 1%positive one_route =
      (w1, [GoRelay l], None) ∧
    Del "r2" w1 = (w2, [SendShutdown l], Returned None) ∧
    routes w2 = routes one_route.
Proof.
  split; [exact one_route_no_r2|]. split; [reflexivity|].
  destruct (Add_Del_roundtrip "r2" "" "9.9.9.9:2003" false 1%positive one_route []
              one_route_no_r2 eq_refl) as (l & w1 & w2 & Hadd & Hdel & Hr & _).
  exists l, w1, w2. by repeat split.
Defined.

(** [Del_present_wf] at work. *)
Lemma Del_present_wf_witness :
  table_wf one_route ∧ Map (routes one_route) !! "r1" = Some 1%positive ∧
  (Del "r1" one_route).1.2 = [SendShutdown 1%positive] ∧
  (Del "r1" one_route).2 = Returned None.
Proof.
  assert (Map (routes one_route) !! "r1" = Some 1%positive) as Hr1
    by (by vm_compute).
  split; [exact one_route_wf|]. split; [exact Hr1|].
  destruct (Del_present_wf "r1" one_route 1%positive one_route_wf Hr1) as [-> _].
  by split.
Defined.

(** [Update_pattern] at work: [r1] gets the pattern [foo]. *)
Lemma Update_pattern_witness :
  deref one_route "r1" = Some (1%positive, started_r1 false) ∧
  ∀ buf, matches (Update net_up "r1" None (Some "foo") one_route).1.1 buf "r1" =
         Match (String.list_byte_of_string "foo") buf.
Proof.
  split; [exact one_route_deref|].
  exact (proj2 (Update_pattern net_up "r1" "foo" one_route 1%positive
                  (started_r1 false) one_route_deref)).
Defined.

(** [Del_then_Dispatch_panics] at work. *)
Lemma Del_then_Dispatch_panics_witness :
  started_routes one_route ∧
  Map (routes one_route) !! "r1" = Some 1%positive ∧
  "r1" ∈ KeyList (routes one_route) ∧
  (Dispatch (Del "r1" one_route).1.1 (line "hello") false).2 = Panicked.
Proof.
  assert (Map (routes one_route) !! "r1" = Some 1%positive) as Hr1
    by (by vm_compute).
  assert ("r1" ∈ KeyList (routes one_route)) as Hin
    by (rewrite one_route_KeyList; apply list_elem_of_here).
  split; [exact one_route_started|]. split; [exact Hr1|]. split; [exact Hin|].
  exact (Del_then_Dispatch_panics "r1" one_route 1%positive (line "hello")
           one_route_started Hr1 Hin).
Defined.

(** [table_wf_ops] at work: an add, a new pattern, a delete. *)
Lemma table_wf_ops_witness :
  table_wf one_route ∧
  table_wf (apply_ops one_route
              [OpAdd "r2" "" "9.9.9.9:2003" true 1%positive;
               OpUpdate net_up "r1" None (Some "foo");
               OpDel "r1"]).
Proof.
  split; [exact one_route_wf|].
  exact (table_wf_ops one_route _ one_route_wf).
Defined.

(** [List_wf] at work. *)
Lemma List_wf_witness :
  table_wf one_route ∧
  ∃ ret, List one_route = (one_route, Returned ret) ∧ is_Some (ret !! "r1").
Proof.
  split; [exact one_route_wf|].
  destruct (List_wf one_route one_route_wf) as (ret & Hret & Hdom & _).
  exists ret. split; [exact Hret|]. apply Hdom. exists 1%positive. by vm_compute.
Defined.

(** [Add_then_List] at work. *)
Lemma Add_then_List_witness :
  valid_pointers one_route ∧ Map (routes one_route) !! "r2" = None ∧
  Compile "" = inl [] ∧
  ∃ ret,
    List one_route = (one_route, Returned ret) ∧
    (List (Add "r2" "" "9.9.9.9:2003" true 1%positive one_route).1.1).2 =
      Returned
        (<["r2" := mkRoute "r2" "" "9.9.9.9:2003" "/var/spool" true 1%positive
                     (Some []) nil_chan nil_chan None None nil_chan nil_chan]>
           ret).
Proof.
  split; [exact one_route_valid|]. split; [exact one_route_no_r2|].
  split; [reflexivity|].
  exact (Add_then_List "r2" "" "9.9.9.9:2003" true 1%positive one_route []
           one_route_valid one_route_no_r2 eq_refl).
Defined.

(** [updateHandler_keeps] at work. *)
Lemma updateHandler_keeps_witness :
  deref one_route "r1" = Some (1%positive, started_r1 false) ∧
  ∃ route',
    deref (updateHandler net_up "r1" "foo" "5.6.7.8:2003" one_route).1.1 "r1" =
      Some (1%positive, route') ∧
    Patt route' = "" ∧ Reg route' = Some [] ∧ Addr route' = "1.2.3.4:2003".
Proof.
  split; [exact one_route_deref|].
  exact (updateHandler_keeps net_up "r1" "foo" "5.6.7.8:2003" one_route "r1"
           1%positive (started_r1 false) one_route_deref).
Defined.

(** [tcp_short_command] at work: [route add] and nothing else. *)
Lemma tcp_short_command_witness :
  (length ["route"; "add"] < 3)%nat ∧
  tcpAddHandler 1%positive ["route"; "add"] one_route =
    (one_route, [], [], Panicked).
Proof.
  assert (length ["route"; "add"] < 3)%nat as Hlen by (cbn; lia).
  split; [exact Hlen|].
  exact (proj1 (tcp_short_command 1%positive net_up ["route"; "add"] one_route
                  Hlen)).
Defined.

(** [tcpAddHandler_adds] at work: [route add r2 foo 9.9.9.9:2003 1]. *)
Lemma tcpAddHandler_adds_witness :
  Map (routes one_route) !! "r2" = None ∧
  Compile "foo" = inl (String.list_byte_of_string "foo") ∧ Compile "" = inl [] ∧
  ∃ w',
    tcpAddHandler 1%positive ["route"; "add"; "r2"; "foo"; "9.9.9.9:2003"; "1"]
      one_route =
      (w', [GoRelay 2%positive], ["added" +:+ nl], Returned None) ∧
    (Spool ∘ snd <$> deref w' "r2") = Some true.
Proof.
  split; [exact one_route_no_r2|]. split; [reflexivity|]. split; [reflexivity|].
  destruct (tcpAddHandler_adds 1%positive "route" "add" "r2" "foo" "9.9.9.9:2003"
              "1" one_route (String.list_byte_of_string "foo") []
              one_route_no_r2 eq_refl eq_refl) as [(w' & Hadd & Hd) _].
  exists w'. split; [exact Hadd|]. by rewrite Hd.
Defined.

(** [tcpPattHandler_sets] at work: [route patt r1] and [route patt r1 (]. *)
Lemma tcpPattHandler_sets_witness :
  deref one_route "r1" = Some (1%positive, started_r1 false) ∧
  Compile "" = inl [] ∧ Compile "(" = inr "error parsing regexp: (" ∧
  tcpPattHandler net_up ["route"; "patt"; "r1"; "("] one_route =
    (one_route, [], [], Returned (Some "error parsing regexp: (")).
Proof.
  split; [exact one_route_deref|]. split; [reflexivity|]. split; [reflexivity|].
  exact (proj2 (tcpPattHandler_sets net_up "route" "patt" "r1" "(" one_route
                  1%positive (started_r1 false) [] "error parsing regexp: ("
                  one_route_deref eq_refl eq_refl)).
Defined.

(** [handle_forwards] at work: two lines, then one that is too long. *)
Lemma handle_forwards_witness :
  Forall complete_line [read_ok "a 1 0"; read_ok "b 2 0"] ∧
  ¬ complete_line (read_long "c") ∧
  handle_range [read_ok "a 1 0"; read_ok "b 2 0"; read_long "c"; read_ok "d 4 0"] =
    [CountIn "target_type=count.unit=Metric.direction=in";
     ToDispatch (line "a 1 0");
     CountIn "target_type=count.unit=Metric.direction=in";
     ToDispatch (line "b 2 0")].
Proof.
  assert (Forall complete_line [read_ok "a 1 0"; read_ok "b 2 0"]) as Hgood
    by (by repeat constructor).
  assert (¬ complete_line (read_long "c")) as Hbad by (by intros [_ ?]).
  split; [exact Hgood|]. split; [exact Hbad|].
  exact (proj2 (handle_forwards [read_ok "a 1 0"; read_ok "b 2 0"] (read_long "c")
                  [read_ok "d 4 0"] Hgood Hbad)).
Defined.

(** [Router_spec] at work: two lines through the one-route table. *)
Lemma Router_spec_witness :
  I1 one_route ∧ started_routes one_route ∧
  Router_range one_route true [line "a 1 0"; line "b 2 0"] =
    ([SendCh 1%positive (line "a 1 0"); SendCh 1%positive (line "b 2 0")], [],
     Returned ()).
Proof.
  split; [exact one_route_I1|]. split; [exact one_route_started|].
  rewrite (Router_spec one_route true [line "a 1 0"; line "b 2 0"]
             one_route_I1 one_route_started).
  by vm_compute.
Defined.

(** [main_KeyList_names] at work: two routes, each followed by its
    settings, between other keys, and a route with a dot in its name. *)
Lemma main_KeyList_names_witness :
  reads_off
    ["listen_addr"; "routes"; "routes.r1"; "routes.r1.patt"; "routes.r1.addr";
     "statsd"; "statsd.host"; "routes.r2"; "routes.r2.addr"; "routes.a.b"]
    ["r1"; "r2"] ∧
  main_KeyList
    ["listen_addr"; "routes"; "routes.r1"; "routes.r1.patt"; "routes.r1.addr";
     "statsd"; "statsd.host"; "routes.r2"; "routes.r2.addr"; "routes.a.b"]
    ["r0"] =
    ["r0"; "r1"; "r2"].
Proof.
  assert (reads_off
            ["listen_addr"; "routes"; "routes.r1"; "routes.r1.patt";
             "routes.r1.addr"; "statsd"; "statsd.host"; "routes.r2";
             "routes.r2.addr"; "routes.a.b"]
            ["r1"; "r2"]) as Hreads.
  { apply reads_skip; [by left|]. apply reads_skip; [by left|].
    apply (reads_route "r1"); [done|].
    apply reads_skip; [by left|]. apply reads_skip; [by left|].
    apply reads_skip; [by left|]. apply reads_skip; [by right|].
    apply (reads_route "r2"); [done|].
    apply reads_skip; [by left|]. apply reads_skip; [by left|].
    apply reads_nil. }
  split; [exact Hreads|].
  exact (proj2 (main_KeyList_names _ ["r0"]) _ Hreads).
Defined.

(** [main_routes_wf] at work: the table of the one-route configuration. *)
Lemma main_routes_wf_witness :
  main_routes one_route_defs one_route_keys "/var/spool" 1%positive =
    inl (one_route, [GoRelay 1%positive], Returned None) ∧
  table_wf one_route ∧ KeyList (routes one_route) = ["r1"].
Proof.
  assert (main_routes one_route_defs one_route_keys "/var/spool" 1%positive =
            inl (one_route, [GoRelay 1%positive], Returned None)) as Hmain
    by (by vm_compute).
  split; [exact Hmain|].
  destruct (main_routes_wf _ _ _ _ _ _ _ Hmain) as (_ & Hwf & _ & Hkeys & _).
  split; [exact Hwf|exact Hkeys].
Defined.

(** [saveHandler_adds] at work: the form sends [r1], which the table has. *)
Lemma saveHandler_adds_witness :
  is_Some (Map (routes one_route) !! "r1") ∧
  saveHandler 1%positive "r1" "foo" "9.9.9.9:2003" one_route =
    (one_route, [], http_Error "route with given key already exists" 500).
Proof.
  assert (is_Some (Map (routes one_route) !! "r1")) as Hr1
    by (exists 1%positive; by vm_compute).
  split; [exact Hr1|].
  exact (proj2 (saveHandler_adds 1%positive "r1" "foo" "9.9.9.9:2003" one_route)
           Hr1).
Defined.

